(** * Verification of the kvstore-backed identity allocator backend

    Shallow embedding of the [kvstoreBackend] of package [allocator]:
    [prefixMatchesKey], [Get], [GetIfLocked], [UpdateKey],
    [UpdateKeyIfLocked], [Release], [RunLocksGC], [RunGC], [keyToID] and
    [ListAndWatch].

    Go strings are byte strings: they are modelled by [string], whose
    characters ([ascii]) are bytes.  Unsigned 64-bit integers are modelled by
    [Z] restricted to [0 .. 2^64-1].  Go maps with string keys are modelled by
    stdpp's [gmap string _]; a map that the code only ranges over is modelled
    by the list of its entries in the order the [range] loop visits them. *)

From Stdlib Require Import ZArith Ascii String.
From stdpp Require Import gmap strings list fin_maps.

Local Open Scope Z_scope.

(** ** Byte-string primitives of the Go standard library used by the backend *)

Module GoStrings.

(** [len(s)] *)
Definition len (s : string) : Z := Z.of_nat (String.length s).

(** [strings.LastIndex(s, sep)] for a one-byte separator: the index of the
    last occurrence of [sep] in [s], or [-1]. *)
Fixpoint LastIndex (s : string) (sep : ascii) : Z :=
  match s with
  | EmptyString => -1
  | String c s' =>
      let r := LastIndex s' sep in
      if 0 <=? r then r + 1
      else if Ascii.eqb c sep then 0 else -1
  end.

(** [strings.HasPrefix(s, prefix)] *)
Fixpoint HasPrefix (s prefix : string) {struct prefix} : bool :=
  match prefix, s with
  | EmptyString, _ => true
  | String p prefix', String c s' => Ascii.eqb c p && HasPrefix s' prefix'
  | String _ _, EmptyString => false
  end.

(** [s[n:]] for [n <= len(s)] *)
Fixpoint drop_bytes (n : nat) (s : string) : string :=
  match n, s with
  | O, _ => s
  | S n', String _ s' => drop_bytes n' s'
  | S _, EmptyString => EmptyString
  end.

(** [strings.TrimPrefix(s, prefix)] *)
Definition TrimPrefix (s prefix : string) : string :=
  if HasPrefix s prefix then drop_bytes (String.length prefix) s else s.

(** [strings.Split(s, sep)] for a one-byte separator.  The result always
    has at least one element. *)
Fixpoint Split (s : string) (sep : ascii) : list string :=
  match s with
  | EmptyString => [EmptyString]
  | String c s' =>
      if Ascii.eqb c sep then EmptyString :: Split s' sep
      else match Split s' sep with
           | [] => [String c EmptyString]
           | x :: xs => String c x :: xs
           end
  end.

(** Whether the byte [c] occurs in [s]. *)
Fixpoint contains_byte (c : ascii) (s : string) : bool :=
  match s with
  | EmptyString => false
  | String a s' => Ascii.eqb a c || contains_byte c s'
  end.

Definition maxUint64 : Z := 18446744073709551615.

Definition digit_of (c : ascii) : option Z :=
  let n := Z.of_N (N_of_ascii c) in
  if (48 <=? n) && (n <=? 57) then Some (n - 48) else None.

Fixpoint parse_digits (acc : Z) (s : string) : option Z :=
  match s with
  | EmptyString => Some acc
  | String c s' =>
      match digit_of c with
      | None => None
      | Some d =>
          let acc' := acc * 10 + d in
          if maxUint64 <? acc' then None else parse_digits acc' s'
      end
  end.

(** [strconv.ParseUint(s, 10, 64)]: [Some n] when [s] is a non-empty
    sequence of decimal digits whose value fits 64 bits, [None] when the
    call returns an error (syntax or range). *)
Definition ParseUint (s : string) : option Z :=
  match s with
  | EmptyString => None
  | _ => parse_digits 0 s
  end.

End GoStrings.

Import GoStrings.

(** ** [prefixMatchesKey] *)

Definition slash : ascii := "/"%char.

Definition prefixMatchesKey (prefix key : string) : bool :=
  let lastSlash := LastIndex key slash in
  len prefix =? lastSlash.

(** ** Data of the kvstore interface and of the allocator *)

(** Modelled from the spec: [idpool.ID], declared in package [idpool], which
    is not among the sources.  An identity is an integer; the backend converts
    it from and to [uint64]. *)
Definition ID : Type := Z.

(** Modelled from the spec: [kvstore.Value], declared in package [kvstore],
    which is not among the sources.  A listed entry carries its value, its
    modification revision and its lease; these are the fields the backend
    reads. *)
Record Value : Type := mkValue {
  Data : string;
  ModRevision : Z;
  LeaseID : Z
}.

(** [kvstore.KeyValuePairs], in the order a [range] loop visits it. *)
Definition KeyValuePairs : Type := list (string * Value).

(** Modelled from the spec: [kvstore.EventType], declared in package
    [kvstore]; the four event types of the watcher wire contract. *)
Inductive EventType : Type :=
| EventTypeCreate
| EventTypeModify
| EventTypeDelete
| EventTypeListDone.

(** Modelled from the spec: [kvstore.KeyValueEvent], declared in package
    [kvstore]; the fields of an event that [ListAndWatch] reads. *)
Record KeyValueEvent : Type := mkEvent {
  Typ : EventType;
  Key : string;
  EvValue : string
}.

(** Go [error] values.  One constructor per [fmt.Errorf] site of the backend,
    and [StoreError] for the errors that the store, a lock or the rate
    limiter hand back. *)
Inductive error : Type :=
| StoreError (code : string)
| ErrListFailed (cause : error)
| ErrRecreateMasterKey (valueKey : string) (cause : error)
| ErrRecreateSlaveKey (valueKey : string) (cause : error)
| ErrInvalidKeyOutsidePrefix (key idPrefix : string)
| ErrCannotParseKeySuffix (suffix : string).

(** A Go function either returns or panics. *)
Inductive outcome (A : Type) : Type :=
| Returns (a : A)
| Panics (reason : string).
Arguments Returns {A} a.
Arguments Panics {A} reason.

(** [allocator.AllocatorKey], an interface declared outside the sources: the
    two methods the backend calls, for any implementation. *)
Class AllocatorKey (K : Type) : Type := {
  GetKey : K → string;
  PutKey : K → string → K
}.

(** [kvstore.BackendOperations], an interface declared outside the sources
    (the methods the backend calls), together with [kvstore.LockPath] and
    [Lock.Unlock]; the backend is verified for any implementation.  [St] is the state of the
    world the store lives in (it may change under concurrent writers at every
    call), [LockT] the type of lock handles.  Every operation returns its Go
    results and the next state. *)
Class BackendOperations (St LockT : Type) : Type := {
  ListPrefix : string → St → (KeyValuePairs * option error) * St;
  ListPrefixIfLocked : string → LockT → St → (KeyValuePairs * option error) * St;
  CreateOnly : string → string → bool → St → (bool * option error) * St;
  CreateOnlyIfLocked : string → string → bool → LockT → St → (bool * option error) * St;
  UpdateIfDifferent : string → string → bool → St → (bool * option error) * St;
  UpdateIfDifferentIfLocked : string → string → bool → LockT → St → (bool * option error) * St;
  Delete : string → St → option error * St;
  DeleteIfLocked : string → LockT → St → option error * St;
  LockPath : string → St → (LockT * option error) * St;
  Unlock : LockT → St → option error * St
}.

(** [rate.Limiter], declared outside the sources: [Wait] blocks and may fail
    (context cancelled). *)
Class Limiter (St : Type) : Type := {
  Wait : St → option error * St
}.

(** The calls a backend method issued, each with the results it got. *)
Inductive call (LockT : Type) : Type :=
| CListPrefix (prefix : string) (pairs : KeyValuePairs) (err : option error)
| CListPrefixIfLocked (prefix : string) (lock : LockT) (pairs : KeyValuePairs) (err : option error)
| CCreateOnly (key value : string) (lease : bool) (success : bool) (err : option error)
| CCreateOnlyIfLocked (key value : string) (lease : bool) (lock : LockT) (success : bool) (err : option error)
| CUpdateIfDifferent (key value : string) (lease : bool) (updated : bool) (err : option error)
| CUpdateIfDifferentIfLocked (key value : string) (lease : bool) (lock : LockT) (updated : bool) (err : option error)
| CDelete (key : string) (err : option error)
| CDeleteIfLocked (key : string) (lock : LockT) (err : option error)
| CLockPath (path : string) (lock : LockT) (err : option error)
| CUnlock (lock : LockT) (err : option error)
| CWait (err : option error).
Arguments CListPrefix {LockT}.
Arguments CListPrefixIfLocked {LockT}.
Arguments CCreateOnly {LockT}.
Arguments CCreateOnlyIfLocked {LockT}.
Arguments CUpdateIfDifferent {LockT}.
Arguments CUpdateIfDifferentIfLocked {LockT}.
Arguments CDelete {LockT}.
Arguments CDeleteIfLocked {LockT}.
Arguments CLockPath {LockT}.
Arguments CUnlock {LockT}.
Arguments CWait {LockT}.

(** Modelled from the spec: [allocator.GCStats], declared in package
    [allocator] of [pkg/allocator]; the statistics [alive] and [deleted] of a
    GC cycle. *)
Record GCStats : Type := mkGCStats {
  Alive : Z;
  Deleted : Z
}.

(** [kvstoreBackend]: the fields the modelled methods read. *)
Record kvstoreBackend (K : Type) : Type := mkBackend {
  basePrefix : string;
  idPrefix : string;
  valuePrefix : string;
  lockPrefix : string;
  suffix : string;
  keyType : K
}.
Arguments basePrefix {K}.
Arguments idPrefix {K}.
Arguments valuePrefix {K}.
Arguments lockPrefix {K}.
Arguments suffix {K}.
Arguments keyType {K}.

(** What [ListAndWatch] does in response to the events: log records and
    calls of the [allocator.CacheMutations] handler. *)
Inductive action (K : Type) : Type :=
| LogWarn (msg : string) (key : string)
| LogError (msg : string) (key : string)
| OnListDone
| OnUpsert (id : ID) (key : option K)
| OnDelete (id : ID) (key : option K).
Arguments LogWarn {K}.
Arguments LogError {K}.
Arguments OnListDone {K}.
Arguments OnUpsert {K}.
Arguments OnDelete {K}.

(** ** A monad for methods that talk to the store

    A computation takes the state of the world and returns its result, the
    next state and the calls it issued, oldest first. *)

Module Store.
Section Monad.
Context {St LockT : Type}.

Definition M (A : Type) : Type := St → A * St * list (call LockT).

Definition ret {A} (a : A) : M A := λ s, (a, s, []).

Definition bind {A B} (f : A → M B) (m : M A) : M B :=
  λ s, let '(a, s1, l1) := m s in
       let '(b, s2, l2) := f a s1 in
       (b, s2, l1 ++ l2).

(** Issue one call: run the operation and record it. *)
Definition perform {R} (op : St → R * St) (record : R → call LockT) : M R :=
  λ s, let '(r, s') := op s in (r, s', [record r]).
End Monad.
Arguments M : clear implicits.

#[global] Instance M_ret {St LockT} : MRet (M St LockT) := @ret St LockT.
#[global] Instance M_bind {St LockT} : MBind (M St LockT) := @bind St LockT.

(** A [for ... range] loop over the entries [l] with loop state [acc]:
    the body yields [inl acc'] to go on with the next entry ([continue]
    or the end of the body) and [inr r] to leave the function with [r]. *)
Fixpoint forRange {St LockT A Acc R} (body : A → Acc → M St LockT (Acc + R))
    (l : list A) (acc : Acc) : M St LockT (Acc + R) :=
  match l with
  | [] => mret (inl acc)
  | x :: l' =>
      r ← body x acc;
      match r with
      | inl acc' => forRange body l' acc'
      | inr res => mret (inr res)
      end
  end.
End Store.

Import Store.

(** ** The methods of [kvstoreBackend] *)

Section Backend.
Context {St LockT K : Type}.
Context `{!BackendOperations St LockT, !Limiter St, !AllocatorKey K}.

(** [path.Join] of the Go standard library. *)
Variable path_Join : list string → string.
(** [idpool.ID.String]: the decimal text of an ID. *)
Variable ID_String : ID → string.
(** [idpool.NoID] *)
Variable NoID : ID.

Implicit Types (k : kvstoreBackend K) (key : K) (id : ID).

Local Abbreviation M := (M St LockT).

(** [lockPath] locks a key in the scope of an allocator. *)
Definition lockPathName k (key : string) : string :=
  let suffix := TrimPrefix key (basePrefix k) in
  path_Join [lockPrefix k; suffix].

Definition lockPath k (key : string) : M (LockT * option error) :=
  let p := lockPathName k key in
  perform (LockPath p) (λ r, CLockPath p r.1 r.2).

(** The loop of [Get] and [GetIfLocked]: the ID of the first visited entry
    whose key matches the prefix and whose value parses. *)
Fixpoint firstMatchingID (prefix : string) (pairs : KeyValuePairs) : option ID :=
  match pairs with
  | [] => None
  | (k, v) :: rest =>
      if prefixMatchesKey prefix k then
        match ParseUint (Data v) with
        | Some id => Some id
        | None => firstMatchingID prefix rest
        end
      else firstMatchingID prefix rest
  end.

(** [Get] returns the ID which is allocated to a key in the kvstore. *)
Definition Get k key : M (ID * option error) :=
  let prefix := path_Join [valuePrefix k; GetKey key] in
  '(pairs, err) ← perform (ListPrefix prefix) (λ r, CListPrefix prefix r.1 r.2);
  match err with
  | Some e => mret (0, Some e)
  | None =>
      match firstMatchingID prefix pairs with
      | Some id => mret (id, None)
      | None => mret (NoID, None)
      end
  end.

(** [GetIfLocked]: the same under a lock. *)
Definition GetIfLocked k key (lock : LockT) : M (ID * option error) :=
  let prefix := path_Join [valuePrefix k; GetKey key] in
  '(pairs, err) ← perform (ListPrefixIfLocked prefix lock)
                    (λ r, CListPrefixIfLocked prefix lock r.1 r.2);
  match err with
  | Some e => mret (0, Some e)
  | None =>
      match firstMatchingID prefix pairs with
      | Some id => mret (id, None)
      | None => mret (NoID, None)
      end
  end.

(** [UpdateKey] refreshes the record that this node is using this
    key -> id mapping. *)
Definition UpdateKey k id key (reliablyMissing : bool) : M (option error) :=
  let keyPath := path_Join [idPrefix k; ID_String id] in
  let valueKey := path_Join [valuePrefix k; GetKey key; suffix k] in
  '(success, err) ← perform (CreateOnly keyPath (GetKey key) false)
                      (λ r, CCreateOnly keyPath (GetKey key) false r.1 r.2);
  match err with
  | Some e => mret (Some (ErrRecreateMasterKey valueKey e))
  | None =>
      '(recreated, err) ←
        (if reliablyMissing then
           perform (CreateOnly valueKey (ID_String id) true)
             (λ r, CCreateOnly valueKey (ID_String id) true r.1 r.2)
         else
           perform (UpdateIfDifferent valueKey (ID_String id) true)
             (λ r, CUpdateIfDifferent valueKey (ID_String id) true r.1 r.2));
      match err with
      | Some e => mret (Some (ErrRecreateSlaveKey valueKey e))
      | None => mret None
      end
  end.

(** [UpdateKeyIfLocked]: the same under a lock. *)
Definition UpdateKeyIfLocked k id key (reliablyMissing : bool) (lock : LockT)
    : M (option error) :=
  let keyPath := path_Join [idPrefix k; ID_String id] in
  let valueKey := path_Join [valuePrefix k; GetKey key; suffix k] in
  '(success, err) ← perform (CreateOnlyIfLocked keyPath (GetKey key) false lock)
                      (λ r, CCreateOnlyIfLocked keyPath (GetKey key) false lock r.1 r.2);
  match err with
  | Some e => mret (Some (ErrRecreateMasterKey valueKey e))
  | None =>
      '(recreated, err) ←
        (if reliablyMissing then
           perform (CreateOnly valueKey (ID_String id) true)
             (λ r, CCreateOnly valueKey (ID_String id) true r.1 r.2)
         else
           perform (UpdateIfDifferentIfLocked valueKey (ID_String id) true lock)
             (λ r, CUpdateIfDifferentIfLocked valueKey (ID_String id) true lock r.1 r.2));
      match err with
      | Some e => mret (Some (ErrRecreateSlaveKey valueKey e))
      | None => mret None
      end
  end.

(** [Release] releases the use of an ID associated with the provided key. *)
Definition Release k (_ : ID) key : M (option error) :=
  let valueKey := path_Join [valuePrefix k; GetKey key; suffix k] in
  err ← perform (Delete valueKey) (CDelete valueKey);
  match err with
  | Some e => mret (Some e)
  | None => mret None
  end.

(** The entry [RunLocksGC] records for a lock it keeps. *)
Definition staleLock (v : Value) : Value :=
  {| Data := EmptyString; ModRevision := ModRevision v; LeaseID := LeaseID v |}.

(** The body of the loop of [RunLocksGC]. *)
Definition locksGCEntry (staleKeysPrevRound : gmap string Value)
    (entry : string * Value) (staleKeys : gmap string Value)
    : M (gmap string Value + Empty_set) :=
  let '(key, v) := entry in
  match staleKeysPrevRound !! key with
  | Some modRev =>
      if (ModRevision modRev =? ModRevision v) && (LeaseID modRev =? LeaseID v) then
        err ← perform (Delete key) (CDelete key);
        match err with
        | None => mret (inl staleKeys)
        | Some _ => mret (inl (<[key := staleLock v]> staleKeys))
        end
      else mret (inl (<[key := staleLock v]> staleKeys))
  | None => mret (inl (<[key := staleLock v]> staleKeys))
  end.

(** [RunLocksGC] scans the kvstore for unused locks and removes them.  The
    result map is [None] for Go's [nil]. *)
Definition RunLocksGC k (staleKeysPrevRound : gmap string Value)
    : M (option (gmap string Value) * option error) :=
  '(allocated, err) ← perform (ListPrefix (lockPrefix k))
                        (λ r, CListPrefix (lockPrefix k) r.1 r.2);
  match err with
  | Some e => mret (None, Some (ErrListFailed e))
  | None =>
      r ← forRange (R := Empty_set) (locksGCEntry staleKeysPrevRound) allocated ∅;
      match r with
      | inl staleKeys => mret (Some staleKeys, None)
      | inr absurd => Empty_set_rect _ absurd
      end
  end.

(** The inner loop of [RunGC]: whether some listed slave key matches the
    prefix. *)
Definition hasUsers (valueKeyPrefix : string) (pairs : KeyValuePairs) : bool :=
  existsb (λ p, prefixMatchesKey valueKeyPrefix p.1) pairs.

(** The body of the loop of [RunGC]; the loop state is [staleKeys] and
    [deletedEntries]. *)
Definition gcEntry k (staleKeysPrevRound : gmap string Z) (min max : Z)
    (entry : string * Value) (acc : gmap string Z * Z)
    : M (gmap string Z * Z + error) :=
  let '(key, v) := entry in
  let '(staleKeys, deletedEntries) := acc in
  let items := Split key slash in
  match last items with
  | None => mret (inl acc)
  | Some item =>
      match ParseUint item with
      | None => mret (inl acc)
      | Some identityID =>
          if (identityID <? min) || (max <? identityID) then mret (inl acc)
          else
            '(lock, err) ← lockPath k key;
            match err with
            | Some _ => mret (inl acc)
            | None =>
                let valueKeyPrefix := path_Join [valuePrefix k; Data v] in
                '(pairs, err) ← perform (ListPrefixIfLocked valueKeyPrefix lock)
                                  (λ r, CListPrefixIfLocked valueKeyPrefix lock r.1 r.2);
                match err with
                | Some _ =>
                    _ ← perform (Unlock lock) (CUnlock lock);
                    mret (inl acc)
                | None =>
                    let hasUsers := hasUsers valueKeyPrefix pairs in
                    '(acc', deleted) ←
                      (if negb hasUsers then
                         match staleKeysPrevRound !! key with
                         | Some modRev =>
                             if modRev =? ModRevision v then
                               err ← perform (DeleteIfLocked key lock)
                                       (CDeleteIfLocked key lock);
                               match err with
                               | Some _ => mret (acc, true)
                               | None => mret ((staleKeys, deletedEntries + 1), true)
                               end
                             else mret (acc, false)
                         | None =>
                             mret ((<[key := ModRevision v]> staleKeys, deletedEntries), false)
                         end
                       else mret (acc, false));
                    _ ← perform (Unlock lock) (CUnlock lock);
                    if deleted : bool then
                      err ← perform Wait CWait;
                      match err with
                      | Some e => mret (inr e)
                      | None => mret (inl acc')
                      end
                    else mret (inl acc')
                end
            end
      end
  end.

(** [RunGC] scans the kvstore for unused master keys and removes them.
    Results that are Go's [nil] are [None]. *)
Definition RunGC k (staleKeysPrevRound : gmap string Z) (minID maxID : ID)
    : M (option (gmap string Z) * option GCStats * option error) :=
  '(allocated, err) ← perform (ListPrefix (idPrefix k))
                        (λ r, CListPrefix (idPrefix k) r.1 r.2);
  match err with
  | Some e => mret (None, None, Some (ErrListFailed e))
  | None =>
      let totalEntries := Z.of_nat (length allocated) in
      let min := minID in
      let max := maxID in
      r ← forRange (gcEntry k staleKeysPrevRound min max) allocated (∅, 0);
      match r with
      | inr e => mret (None, None, Some e)
      | inl (staleKeys, deletedEntries) =>
          mret (Some staleKeys,
                Some {| Alive := totalEntries - deletedEntries;
                        Deleted := deletedEntries |},
                None)
      end
  end.

(** [keyToID] parses the ID out of a master key. *)
Definition keyToID k (key : string) : outcome (ID * option error) :=
  if negb (HasPrefix key (idPrefix k)) then
    Returns (NoID, Some (ErrInvalidKeyOutsidePrefix key (idPrefix k)))
  else
    let suffix := TrimPrefix key (idPrefix k) in
    match suffix with
    | EmptyString => Panics "index out of range [0] with length 0"
    | String c rest =>
        let suffix := if Ascii.eqb c slash then rest else suffix in
        match ParseUint suffix with
        | None => Returns (NoID, Some (ErrCannotParseKeySuffix suffix))
        | Some idParsed => Returns (idParsed, None)
        end
    end.

(** The body of the loop of [ListAndWatch]: what is done for one event. *)
Definition watchEvent k (event : KeyValueEvent) : outcome (list (action K)) :=
  match Typ event with
  | EventTypeListDone => Returns [OnListDone]
  | typ =>
      match keyToID k (Key event) with
      | Panics reason => Panics reason
      | Returns (_, Some _) => Returns [LogWarn "Invalid key" (Key event)]
      | Returns (id, None) =>
          if bool_decide (id ≠ NoID) then
            let dispatch (key : option K) :=
              match typ with
              | EventTypeCreate | EventTypeModify => [OnUpsert id key]
              | EventTypeDelete => [OnDelete id key]
              | EventTypeListDone => []
              end in
            if 0 <? len (EvValue event) then
              Returns (dispatch (Some (PutKey (keyType k) (EvValue event))))
            else
              match typ with
              | EventTypeDelete => Returns (dispatch None)
              | _ => Returns [LogError "Received a key with an empty value" (Key event)]
              end
          else Returns []
      end
  end.

(** [ListAndWatch] over the events the watch channel delivers: for every
    event handled, the event and what was done for it; and the panic that
    ended the loop, if any. *)
Fixpoint ListAndWatch k (events : list KeyValueEvent)
    : list (KeyValueEvent * list (action K)) * option string :=
  match events with
  | [] => ([], None)
  | event :: rest =>
      match watchEvent k event with
      | Panics reason => ([], Some reason)
      | Returns acts =>
          let '(journal, panic) := ListAndWatch k rest in
          ((event, acts) :: journal, panic)
      end
  end.

End Backend.

(** ** An in-memory store

    Modelled from the spec: the kvstore driver is not among the sources.
    This small store behaves as the interface contract says (atomic
    create-if-absent, update-if-different, deletion, prefix listing) and
    serves to run the methods on concrete states; the general theorems hold
    for every implementation of the interface and do not depend on it.
    Operations on the keys and lock paths listed in [failing] return an
    error. *)

Module MemStore.

Record store : Type := mkStore {
  entries : KeyValuePairs;
  revision : Z;
  failing : list string;
  limiterFails : bool
}.

Definition unavailable : error := StoreError "unavailable".

Definition fails (s : store) (key : string) : bool :=
  existsb (String.eqb key) (failing s).

Definition lookup (s : store) (key : string) : option Value :=
  snd <$> List.find (λ kv, String.eqb kv.1 key) (entries s).

Definition remove (key : string) (l : KeyValuePairs) : KeyValuePairs :=
  List.filter (λ kv, negb (String.eqb kv.1 key)) l.

Definition put (s : store) (key value : string) (lease : bool) : store :=
  {| entries := remove key (entries s) ++
                [(key, {| Data := value; ModRevision := revision s + 1;
                          LeaseID := if lease then 1 else 0 |})];
     revision := revision s + 1;
     failing := failing s;
     limiterFails := limiterFails s |}.

Definition listPrefix (prefix : string) (s : store)
    : (KeyValuePairs * option error) * store :=
  if fails s prefix then (([], Some unavailable), s)
  else ((List.filter (λ kv, HasPrefix kv.1 prefix) (entries s), None), s).

Definition createOnly (key value : string) (lease : bool) (s : store)
    : (bool * option error) * store :=
  if fails s key then ((false, Some unavailable), s)
  else match lookup s key with
       | Some _ => ((false, None), s)
       | None => ((true, None), put s key value lease)
       end.

Definition updateIfDifferent (key value : string) (lease : bool) (s : store)
    : (bool * option error) * store :=
  if fails s key then ((false, Some unavailable), s)
  else match lookup s key with
       | Some v =>
           if String.eqb (Data v) value then ((false, None), s)
           else ((true, None), put s key value lease)
       | None => ((true, None), put s key value lease)
       end.

Definition delete (key : string) (s : store) : option error * store :=
  if fails s key then (Some unavailable, s)
  else (None, {| entries := remove key (entries s);
                 revision := revision s + 1;
                 failing := failing s;
                 limiterFails := limiterFails s |}).

Definition lockPath (path : string) (s : store)
    : (string * option error) * store :=
  if fails s path then ((EmptyString, Some unavailable), s)
  else ((path, None), s).

#[global] Instance ops : BackendOperations store string := {|
  ListPrefix := listPrefix;
  ListPrefixIfLocked := λ prefix _, listPrefix prefix;
  CreateOnly := createOnly;
  CreateOnlyIfLocked := λ key value lease _, createOnly key value lease;
  UpdateIfDifferent := updateIfDifferent;
  UpdateIfDifferentIfLocked := λ key value lease _, updateIfDifferent key value lease;
  Delete := delete;
  DeleteIfLocked := λ key _, delete key;
  LockPath := lockPath;
  Unlock := λ _ s, (None, s)
|}.

#[global] Instance limiter : Limiter store := {|
  Wait := λ s, (if limiterFails s then Some unavailable else None, s)
|}.

(** Keys that are their own text. *)
#[global] Instance stringKey : AllocatorKey string := {|
  GetKey := λ key, key;
  PutKey := λ _ raw, raw
|}.

(** Joining path elements with [/] and collapsing repeated separators, as
    [path.Join] does on elements without [.] and [..] segments and without
    a trailing separator. *)
Fixpoint collapse (s : string) : string :=
  match s with
  | String a ((String b _) as s') =>
      if Ascii.eqb a slash && Ascii.eqb b slash then collapse s'
      else String a (collapse s')
  | _ => s
  end.

Definition join (elems : list string) : string :=
  collapse (String.concat "/" elems).

(** Decimal text of a small ID. *)
Definition digit (d : Z) : string :=
  String (ascii_of_N (Z.to_N (48 + d))) EmptyString.

Fixpoint decimal (fuel : nat) (n : Z) : string :=
  match fuel with
  | O => EmptyString
  | S fuel' =>
      if n <? 10 then digit n
      else decimal fuel' (n / 10) +:+ digit (n mod 10)
  end.

Definition idString (id : ID) : string := decimal 20 id.

Definition backend : kvstoreBackend string := {|
  basePrefix := "b";
  idPrefix := "b/id";
  valuePrefix := "b/value";
  lockPrefix := "b/locks";
  suffix := "n1";
  keyType := EmptyString
|}.

Definition val (data : string) (rev lease : Z) : Value :=
  {| Data := data; ModRevision := rev; LeaseID := lease |}.

Definition store_of (l : KeyValuePairs) : store :=
  {| entries := l; revision := 100; failing := []; limiterFails := false |}.

(** The bounds of one cluster's pool of identities. *)
Definition minID : ID := 256.
Definition maxID : ID := 65535.

(** A master key without slave keys; the slave key listed under the same
    prefix belongs to the longer key [kk]. *)
Definition unusedMaster : store :=
  store_of [("b/id/300", val "k" 7 0); ("b/value/kk/n2", val "301" 8 1)].

(** A master key in use by node [n2]. *)
Definition usedMaster : store :=
  store_of [("b/id/300", val "k" 7 0); ("b/value/k/n2", val "300" 8 1)].

(** A master key of another allocator sharing the prefix. *)
Definition foreignMaster : store :=
  store_of [("b/id/999999", val "j" 6 0)].

(** Two locks left behind. *)
Definition twoLocks : store :=
  store_of [("b/locks/id/1", val "" 3 9); ("b/locks/id/2", val "" 4 9)].

(** The previous round saw the first lock as it is and the second one
    under an older ModRevision. *)
Definition locksSeenBefore : gmap string Value :=
  {[ "b/locks/id/1" := val "" 3 9; "b/locks/id/2" := val "" 2 9 ]}.

End MemStore.

(** ** The writes behind the calls

    The kvstore interface offers three kinds of write; every call that can
    change a key is one of them, whether it is guarded by a lock or not. *)

Inductive mutation : Type :=
| CreateIfAbsent (key value : string) (lease : bool)
| UpdateIfDiffers (key value : string) (lease : bool)
| Deletion (key : string).

Definition mutation_of {LockT} (c : call LockT) : option mutation :=
  match c with
  | CCreateOnly key value lease _ _
  | CCreateOnlyIfLocked key value lease _ _ _ => Some (CreateIfAbsent key value lease)
  | CUpdateIfDifferent key value lease _ _
  | CUpdateIfDifferentIfLocked key value lease _ _ _ => Some (UpdateIfDiffers key value lease)
  | CDelete key _
  | CDeleteIfLocked key _ _ => Some (Deletion key)
  | CListPrefix _ _ _ | CListPrefixIfLocked _ _ _ _
  | CLockPath _ _ _ | CUnlock _ _ | CWait _ => None
  end.

Definition mutations {LockT} (calls : list (call LockT)) : list mutation :=
  omap mutation_of calls.

(** ** Runs of the garbage collectors, entry by entry *)

Section Runs.
Context {St LockT K : Type}.
Context `{!BackendOperations St LockT, !Limiter St, !AllocatorKey K}.
Variable path_Join : list string → string.

(** Whether [RunGC] treats a master key as one of its own: the last path
    segment parses and lies within [min, max]. *)
Definition gcInScope (min max : Z) (key : string) : bool :=
  match last (Split key slash) with
  | None => false
  | Some item =>
      match ParseUint item with
      | None => false
      | Some identityID => negb ((identityID <? min) || (max <? identityID))
      end
  end.

(** Whether [RunLocksGC] finds a listed lock unchanged since the previous
    round. *)
Definition lockUnchanged (staleKeysPrevRound : gmap string Value)
    (key : string) (v : Value) : bool :=
  match staleKeysPrevRound !! key with
  | Some modRev =>
      (ModRevision modRev =? ModRevision v) && (LeaseID modRev =? LeaseID v)
  | None => false
  end.

(** The ways one pass of the body of [RunGC] over the entry [(key, v)] can
    go: the loop state or error it yields from the loop state [acc], and
    the calls it issues. *)
Inductive gcPass (k : kvstoreBackend K) (prev : gmap string Z) (min max : Z)
    (key : string) (v : Value) (acc : gmap string Z * Z)
    : gmap string Z * Z + error → list (call LockT) → Prop :=
| gcSkipped :
    gcInScope min max key = false →
    gcPass k prev min max key v acc (inl acc) []
| gcLockFailed lock e :
    gcInScope min max key = true →
    gcPass k prev min max key v acc (inl acc)
      [CLockPath (lockPathName path_Join k key) lock (Some e)]
| gcListFailed lock pairs e u :
    gcInScope min max key = true →
    gcPass k prev min max key v acc (inl acc)
      [CLockPath (lockPathName path_Join k key) lock None;
       CListPrefixIfLocked (path_Join [valuePrefix k; Data v]) lock pairs (Some e);
       CUnlock lock u]
| gcInUse lock pairs u :
    gcInScope min max key = true →
    hasUsers (path_Join [valuePrefix k; Data v]) pairs = true →
    gcPass k prev min max key v acc (inl acc)
      [CLockPath (lockPathName path_Join k key) lock None;
       CListPrefixIfLocked (path_Join [valuePrefix k; Data v]) lock pairs None;
       CUnlock lock u]
| gcMarked lock pairs u :
    gcInScope min max key = true →
    hasUsers (path_Join [valuePrefix k; Data v]) pairs = false →
    prev !! key = None →
    gcPass k prev min max key v acc
      (inl (<[key := ModRevision v]> acc.1, acc.2))
      [CLockPath (lockPathName path_Join k key) lock None;
       CListPrefixIfLocked (path_Join [valuePrefix k; Data v]) lock pairs None;
       CUnlock lock u]
| gcReused lock pairs u modRev :
    gcInScope min max key = true →
    hasUsers (path_Join [valuePrefix k; Data v]) pairs = false →
    prev !! key = Some modRev →
    modRev ≠ ModRevision v →
    gcPass k prev min max key v acc (inl acc)
      [CLockPath (lockPathName path_Join k key) lock None;
       CListPrefixIfLocked (path_Join [valuePrefix k; Data v]) lock pairs None;
       CUnlock lock u]
| gcDeleting lock pairs err u w :
    gcInScope min max key = true →
    hasUsers (path_Join [valuePrefix k; Data v]) pairs = false →
    prev !! key = Some (ModRevision v) →
    gcPass k prev min max key v acc
      (match w with
       | Some e => inr e
       | None => inl (acc.1, match err with Some _ => acc.2 | None => acc.2 + 1 end)
       end)
      [CLockPath (lockPathName path_Join k key) lock None;
       CListPrefixIfLocked (path_Join [valuePrefix k; Data v]) lock pairs None;
       CDeleteIfLocked key lock err;
       CUnlock lock u;
       CWait w].

(** The passes of a loop: for each entry visited, the entry and the calls
    issued for it. *)
Fixpoint journal {Acc R} (body : string * Value → Acc → M St LockT (Acc + R))
    (l : KeyValuePairs) (acc : Acc) (s : St)
    : list (string * Value * list (call LockT)) :=
  match l with
  | [] => []
  | entry :: l' =>
      let '(r, s1, calls) := body entry acc s in
      (entry.1, entry.2, calls) ::
      match r with
      | inl acc' => journal body l' acc' s1
      | inr _ => []
      end
  end.

(** A pass that found the master key unused: the lock was taken and the
    locked listing of slave keys succeeded without a matching key. *)
Definition foundUnused (k : kvstoreBackend K) (key : string) (v : Value)
    (calls : list (call LockT)) : Prop :=
  ∃ lock pairs rest,
    calls = CLockPath (lockPathName path_Join k key) lock None ::
            CListPrefixIfLocked (path_Join [valuePrefix k; Data v]) lock pairs None ::
            rest
    ∧ hasUsers (path_Join [valuePrefix k; Data v]) pairs = false.

End Runs.

(** ** Further methods of [kvstoreBackend] *)

(** The errors of the allocation methods, one constructor per [fmt.Errorf]
    site.  [AllocateID] wraps the error of the store, which is [nil] when
    the key exists already. *)
Inductive allocationError : Type :=
| ErrCreateMasterKey (keyPath : string) (cause : option error)
| ErrCreateValueNodeKey (valueKey : string) (cause : error)
| ErrCreateSlaveKey (key : string) (cause : allocationError).

Section Allocation.
Context {St LockT K : Type}.
Context `{!BackendOperations St LockT, !AllocatorKey K}.
Variable path_Join : list string → string.
Variable ID_String : ID → string.
Variable NoID : ID.

Implicit Types (k : kvstoreBackend K) (key : K) (id : ID).

Local Abbreviation M := (M St LockT).

(** [AllocateID] allocates a key->ID mapping in the kvstore.  The key
    returned is [None] for Go's [nil]. *)
Definition AllocateID k id key : M (option K * option allocationError) :=
  let keyPath := path_Join [idPrefix k; ID_String id] in
  '(success, err) ← perform (CreateOnly keyPath (GetKey key) false)
                      (λ r, CCreateOnly keyPath (GetKey key) false r.1 r.2);
  if bool_decide (err ≠ None) || negb success
  then mret (None, Some (ErrCreateMasterKey keyPath err))
  else mret (Some key, None).

(** [AllocateIDIfLocked]: the same under a lock. *)
Definition AllocateIDIfLocked k id key (lock : LockT)
    : M (option K * option allocationError) :=
  let keyPath := path_Join [idPrefix k; ID_String id] in
  '(success, err) ← perform (CreateOnlyIfLocked keyPath (GetKey key) false lock)
                      (λ r, CCreateOnlyIfLocked keyPath (GetKey key) false lock r.1 r.2);
  if bool_decide (err ≠ None) || negb success
  then mret (None, Some (ErrCreateMasterKey keyPath err))
  else mret (Some key, None).

(** [createValueNodeKey] records that this node is using this key->ID. *)
Definition createValueNodeKey k (key : string) (newID : ID) (lock : LockT)
    : M (option allocationError) :=
  let valueKey := path_Join [valuePrefix k; key; suffix k] in
  '(_, err) ← perform (UpdateIfDifferentIfLocked valueKey (ID_String newID) true lock)
                (λ r, CUpdateIfDifferentIfLocked valueKey (ID_String newID) true lock r.1 r.2);
  match err with
  | Some e => mret (Some (ErrCreateValueNodeKey valueKey e))
  | None => mret None
  end.

(** [AcquireReference] marks that this node is using this key->ID mapping
    in the kvstore. *)
Definition AcquireReference k id key (lock : LockT) : M (option allocationError) :=
  let keyString := GetKey key in
  err ← createValueNodeKey k keyString id lock;
  match err with
  | Some e => mret (Some (ErrCreateSlaveKey keyString e))
  | None => mret None
  end.

(** [DeleteID] deletes the master key of an ID. *)
Definition DeleteID k id : M (option error) :=
  let keyPath := path_Join [idPrefix k; ID_String id] in
  perform (Delete keyPath) (CDelete keyPath).

(** [Lock] locks a key in the scope of an allocator; the method [lock] it
    calls has the body of [lockPath]. *)
Definition Lock k key : M (LockT * option error) :=
  lockPath path_Join k (GetKey key).

(** The loop of [ListIDs]: the IDs parsed out of the listed keys are
    appended to [identityIDs]; a key that does not parse is passed over. *)
Fixpoint collectIDs k (identities : KeyValuePairs) (identityIDs : list ID)
    : outcome (list ID) :=
  match identities with
  | [] => Returns identityIDs
  | (key, _) :: rest =>
      match keyToID NoID k key with
      | Panics reason => Panics reason
      | Returns (_, Some _) => collectIDs k rest identityIDs
      | Returns (id, None) => collectIDs k rest (identityIDs ++ [id])
      end
  end.

(** [ListIDs] lists the IDs of the master keys. *)
Definition ListIDs k : M (outcome (list ID * option error)) :=
  '(identities, err) ← perform (ListPrefix (idPrefix k))
                         (λ r, CListPrefix (idPrefix k) r.1 r.2);
  match err with
  | Some e => mret (Returns ([], Some e))
  | None =>
      match collectIDs k identities [] with
      | Panics reason => mret (Panics reason)
      | Returns identityIDs => mret (Returns (identityIDs, None))
      end
  end.

End Allocation.

(** ** Reading the calls of a run *)

Section Reading.
Context {LockT : Type}.

(** The deletions of master keys that succeeded, and those tried. *)
Definition deletionDone (c : call LockT) : bool :=
  match c with
  | CDeleteIfLocked _ _ None => true
  | _ => false
  end.

Definition deletionTried (c : call LockT) : bool :=
  match c with
  | CDeleteIfLocked _ _ _ => true
  | _ => false
  end.

Definition limiterWait (c : call LockT) : bool :=
  match c with
  | CWait _ => true
  | _ => false
  end.

(** The discipline of a sequence of calls with respect to the lock
    [held] at its start: a lock is taken only while none is held, the
    calls guarded by a lock carry the lock held, the rate limiter is waited
    for only while no lock is held, and no lock is held at the end. *)
Fixpoint lockDiscipline (held : option LockT) (calls : list (call LockT)) : Prop :=
  match calls with
  | [] => held = None
  | c :: rest =>
      match c with
      | CLockPath _ lock None => held = None ∧ lockDiscipline (Some lock) rest
      | CLockPath _ _ (Some _) => held = None ∧ lockDiscipline None rest
      | CUnlock lock _ => held = Some lock ∧ lockDiscipline None rest
      | CListPrefixIfLocked _ lock _ _
      | CCreateOnlyIfLocked _ _ _ lock _ _
      | CUpdateIfDifferentIfLocked _ _ _ lock _ _
      | CDeleteIfLocked _ lock _ => held = Some lock ∧ lockDiscipline held rest
      | CWait _ => held = None ∧ lockDiscipline held rest
      | CListPrefix _ _ _ | CCreateOnly _ _ _ _ _
      | CUpdateIfDifferent _ _ _ _ _ | CDelete _ _ => lockDiscipline held rest
      end
  end.

End Reading.

(** ** The calls of a run against the store

    The record of a call holds what the store answered.  A sequence of
    records is performed from a state when each call, issued in turn from
    the state the call before it left, gets the recorded answer; the state
    reached is the state the last call leaves. *)

Section Replay.
Context {St LockT : Type}.
Context `{!BackendOperations St LockT, !Limiter St}.

Definition answers (c : call LockT) (s s' : St) : Prop :=
  match c with
  | CListPrefix prefix pairs err =>
      ListPrefix prefix s = ((pairs, err), s')
  | CListPrefixIfLocked prefix lock pairs err =>
      ListPrefixIfLocked prefix lock s = ((pairs, err), s')
  | CCreateOnly key value lease success err =>
      CreateOnly key value lease s = ((success, err), s')
  | CCreateOnlyIfLocked key value lease lock success err =>
      CreateOnlyIfLocked key value lease lock s = ((success, err), s')
  | CUpdateIfDifferent key value lease updated err =>
      UpdateIfDifferent key value lease s = ((updated, err), s')
  | CUpdateIfDifferentIfLocked key value lease lock updated err =>
      UpdateIfDifferentIfLocked key value lease lock s = ((updated, err), s')
  | CDelete key err => Delete key s = (err, s')
  | CDeleteIfLocked key lock err => DeleteIfLocked key lock s = (err, s')
  | CLockPath path lock err => LockPath path s = ((lock, err), s')
  | CUnlock lock err => Unlock lock s = (err, s')
  | CWait err => Wait s = (err, s')
  end.

Fixpoint performed (s : St) (calls : list (call LockT)) (s' : St) : Prop :=
  match calls with
  | [] => s' = s
  | c :: rest => ∃ s1, answers c s s1 ∧ performed s1 rest s'
  end.

(** A computation is faithful when, from every state, the calls it records
    are performed from that state and reach the state it returns: every
    recorded call was issued to the store, with the answer recorded, and the
    store was changed by nothing else. *)
Definition faithful {A} (m : M St LockT A) : Prop :=
  ∀ s, performed s (m s).2 (m s).1.2.

End Replay.

(** * Properties *)

(** ** Byte strings *)

Section StringFacts.
Implicit Types (s head sfx : string) (c : ascii).
Local Arguments String.append !_ _ / : simpl nomatch.

Lemma len_nonneg s : 0 ≤ len s.
Proof. unfold len. lia. Qed.

Lemma len_app s1 s2 : len (s1 +:+ s2) = len s1 + len s2.
Proof.
  unfold len. induction s1 as [|a s1 IH]; simpl; [lia|].
  rewrite !Nat2Z.inj_succ. lia.
Qed.

Lemma LastIndex_lower s c : -1 ≤ LastIndex s c.
Proof.
  induction s as [|a s IH]; simpl; [lia|].
  destruct (Z.leb_spec 0 (LastIndex s c)); [lia|].
  destruct (Ascii.eqb a c); lia.
Qed.

Lemma LastIndex_absent s c :
  LastIndex s c = -1 ↔ contains_byte c s = false.
Proof.
  induction s as [|a s IH]; simpl; [done|].
  destruct (Z.leb_spec 0 (LastIndex s c)) as [Hge|Hlt].
  - split; intros Hx; [lia|].
    apply orb_false_iff in Hx as [_ Hx]. apply IH in Hx. lia.
  - assert (LastIndex s c = -1) as Hm by (pose proof (LastIndex_lower s c); lia).
    apply IH in Hm. rewrite Hm, orb_false_r.
    destruct (Ascii.eqb a c); split; intros; (done || lia).
Qed.

(** The last occurrence splits the string. *)
Lemma LastIndex_split s c :
  0 ≤ LastIndex s c →
  ∃ head sfx, s = head +:+ String c sfx ∧ len head = LastIndex s c
              ∧ contains_byte c sfx = false.
Proof.
  induction s as [|a s IH]; simpl; [lia|].
  destruct (Z.leb_spec 0 (LastIndex s c)) as [Hge|Hlt]; intros Hpos.
  - destruct (IH Hge) as (head & sfx & -> & Hlen & Hno).
    exists (String a head), sfx. split_and!; [done| |done].
    unfold len in *. simpl. lia.
  - destruct (Ascii.eqb_spec a c) as [->|]; [|lia].
    exists EmptyString, s. split_and!; [done|done|].
    apply LastIndex_absent. pose proof (LastIndex_lower s c). lia.
Qed.

Lemma LastIndex_app head sfx c :
  contains_byte c sfx = false →
  LastIndex (head +:+ String c sfx) c = len head.
Proof.
  intros Hno. induction head as [|a head IH]; simpl.
  - apply LastIndex_absent in Hno. rewrite Hno. simpl.
    by rewrite Ascii.eqb_refl.
  - rewrite IH. pose proof (len_nonneg head).
    destruct (Z.leb_spec 0 (len head)); [|lia].
    unfold len. simpl. lia.
Qed.

Lemma HasPrefix_app s prefix :
  HasPrefix s prefix = true ↔ ∃ rest, s = prefix +:+ rest.
Proof.
  revert s. induction prefix as [|p prefix IH]; intros s; simpl.
  - split; [intros _; by exists s|done].
  - destruct s as [|a s]; [split; [done|by intros [? ?]]|].
    rewrite andb_true_iff, IH. split.
    + intros [Ha [rest ->]]. apply Ascii.eqb_eq in Ha as ->. by exists rest.
    + intros [rest [= -> ->]]. split; [apply Ascii.eqb_refl|by exists rest].
Qed.

Lemma HasPrefix_refl s : HasPrefix s s = true.
Proof. induction s as [|a s IH]; simpl; [done|]. by rewrite Ascii.eqb_refl. Qed.

Lemma drop_bytes_all s : drop_bytes (String.length s) s = EmptyString.
Proof. induction s; simpl; done. Qed.

Lemma drop_bytes_app s rest : drop_bytes (String.length s) (s +:+ rest) = rest.
Proof. induction s; simpl; done. Qed.

Lemma TrimPrefix_self s : TrimPrefix s s = EmptyString.
Proof. unfold TrimPrefix. by rewrite HasPrefix_refl, drop_bytes_all. Qed.

Lemma app_inv_len head1 head2 s1 s2 :
  head1 +:+ s1 = head2 +:+ s2 → String.length head1 = String.length head2 →
  head1 = head2 ∧ s1 = s2.
Proof.
  revert head2. induction head1 as [|a h1 IH]; intros [|b h2]; simpl; try done.
  intros [= -> Heq] [= Hlen]. destruct (IH _ Heq Hlen) as [-> ->]. done.
Qed.

Lemma digit_of_range c d : digit_of c = Some d → 0 ≤ d ≤ 9.
Proof.
  unfold digit_of. destruct (_ && _) eqn:Hb; [|done].
  apply andb_true_iff in Hb as [?%Z.leb_le ?%Z.leb_le]. intros [= <-]. lia.
Qed.

Lemma parse_digits_range acc s n :
  0 ≤ acc ≤ maxUint64 → parse_digits acc s = Some n → 0 ≤ n ≤ maxUint64.
Proof.
  revert acc. induction s as [|c s IH]; simpl; intros acc Hacc.
  - by intros [= <-].
  - destruct (digit_of c) as [d|] eqn:Hd; [|done].
    apply digit_of_range in Hd.
    destruct (Z.ltb_spec maxUint64 (acc * 10 + d)); [done|].
    apply IH. lia.
Qed.

(** A parsed number fits an unsigned 64-bit integer. *)
Lemma ParseUint_range s n : ParseUint s = Some n → 0 ≤ n ≤ maxUint64.
Proof.
  unfold ParseUint. destruct s; [done|].
  apply parse_digits_range. unfold maxUint64. lia.
Qed.

Lemma ParseUint_empty : ParseUint EmptyString = None.
Proof. reflexivity. Qed.

End StringFacts.

(** ** [prefixMatchesKey] *)

Example prefixMatchesKey_node :
  prefixMatchesKey "v1/value/label;foo;" "v1/value/label;foo;/172.0.124.60" = true.
Proof. reflexivity. Qed.

Example prefixMatchesKey_superset :
  prefixMatchesKey "v1/value/label;foo;" "v1/value/label;foo;bar;/172.0.124.60" = false.
Proof. reflexivity. Qed.

(** The characterisation by the position of the last separator. *)
Lemma prefixMatchesKey_last_slash prefix key :
  prefixMatchesKey prefix key = true ↔
  ∃ head sfx, key = head +:+ String slash sfx
              ∧ String.length head = String.length prefix
              ∧ contains_byte slash sfx = false.
Proof.
  unfold prefixMatchesKey. rewrite Z.eqb_eq. split.
  - intros Hlen. pose proof (len_nonneg prefix).
    destruct (LastIndex_split key slash) as (head & sfx & -> & Hh & Hno); [lia|].
    exists head, sfx. split_and!; [done| |done].
    unfold len in *. lia.
  - intros (head & sfx & -> & Hh & Hno).
    rewrite LastIndex_app by done. unfold len. lia.
Qed.

(** C2, as stated, fails: the predicate holds for a key that does not start
    with the prefix, and for a key whose suffix after the separator is
    empty. *)
Lemma prefixMatchesKey_foreign_and_empty_suffix :
  ¬ (prefixMatchesKey "ab" "xy/z" = true ↔
     ∃ sfx, "xy/z" = "ab" +:+ String slash sfx ∧ sfx ≠ EmptyString
            ∧ contains_byte slash sfx = false)
  ∧ ¬ (prefixMatchesKey "ab" "ab/" = true ↔
       ∃ sfx, "ab/" = "ab" +:+ String slash sfx ∧ sfx ≠ EmptyString
              ∧ contains_byte slash sfx = false).
Proof.
  split; intros [Hm _]; destruct (Hm eq_refl) as (sfx & Heq & Hne & _);
    cbv in Heq; [done|]. by injection Heq as <-.
Qed.

(** C2 (amended): [prefixMatchesKey prefix key] holds exactly when the last
    [/] of [key] is at byte index [len prefix], that is when [key] is some
    [head] as long as [prefix], then [/], then a suffix without [/]; and for
    a key that starts with [prefix], exactly when [key] is [prefix], then
    [/], then a possibly empty suffix without [/]. *)
Theorem prefixMatchesKey_spec prefix key :
  (prefixMatchesKey prefix key = true ↔
   ∃ head sfx, key = head +:+ String slash sfx
               ∧ String.length head = String.length prefix
               ∧ contains_byte slash sfx = false)
  ∧ (HasPrefix key prefix = true →
     (prefixMatchesKey prefix key = true ↔
      ∃ sfx, key = prefix +:+ String slash sfx ∧ contains_byte slash sfx = false)).
Proof.
  split; [apply prefixMatchesKey_last_slash|].
  intros [rest ->]%HasPrefix_app. rewrite prefixMatchesKey_last_slash. split.
  - intros (head & sfx & Heq & Hlen & Hno).
    apply app_inv_len in Heq as [<- ->]; [|done].
    by exists sfx.
  - intros (sfx & Heq & Hno). by exists prefix, sfx.
Qed.

Lemma prefixMatchesKey_spec_witness :
  HasPrefix "b/value/k/n1" "b/value/k" = true
  ∧ (prefixMatchesKey "b/value/k" "b/value/k/n1" = true ↔
     ∃ sfx, "b/value/k/n1" = "b/value/k" +:+ String slash sfx
            ∧ contains_byte slash sfx = false).
Proof.
  split; [reflexivity|].
  apply (prefixMatchesKey_spec "b/value/k" "b/value/k/n1"). reflexivity.
Defined.

(** ** Unfolding computations in the store monad *)

Ltac run_store :=
  unfold mbind, M_bind, bind, mret, M_ret, ret, perform in *; simpl in *.

(** ** [keyToID], [Get], [UpdateKey], [Release] and [ListAndWatch] *)

Section BackendFacts.
Context {St LockT K : Type}.
Context `{!BackendOperations St LockT, !Limiter St, !AllocatorKey K}.
Variable path_Join : list string → string.
Variable ID_String : ID → string.
Variable NoID : ID.

Implicit Types (k : kvstoreBackend K) (key : K) (id : ID) (s : St).

Local Arguments String.append !_ _ / : simpl nomatch.

(** C10: on a key equal to the master-key prefix, [keyToID] indexes the
    empty string left by [TrimPrefix] and panics. *)
Theorem keyToID_prefix_panics k :
  keyToID NoID k (idPrefix k) = Panics "index out of range [0] with length 0".
Proof.
  unfold keyToID. by rewrite HasPrefix_refl, TrimPrefix_self.
Qed.

(** On every other key [keyToID] returns: a parsed ID without an error, or
    [NoID] with an error. *)
Lemma keyToID_returns_elsewhere k (masterKey : string) :
  masterKey ≠ idPrefix k →
  (∃ sfx id, ParseUint sfx = Some id ∧ keyToID NoID k masterKey = Returns (id, None))
  ∨ (∃ e, keyToID NoID k masterKey = Returns (NoID, Some e)).
Proof.
  intros Hne. unfold keyToID.
  destruct (HasPrefix masterKey (idPrefix k)) eqn:Hp; simpl; [|right; eauto].
  unfold TrimPrefix. rewrite Hp.
  apply HasPrefix_app in Hp as [rest ->]. rewrite drop_bytes_app.
  destruct rest as [|c rest].
  { destruct Hne. clear. induction (idPrefix k); simpl; congruence. }
  destruct (ParseUint _) eqn:Hparse; [left|right]; eauto.
Qed.

Lemma firstMatchingID_sound prefix (pairs : KeyValuePairs) id :
  firstMatchingID prefix pairs = Some id →
  ∃ slaveKey v, (slaveKey, v) ∈ pairs ∧ prefixMatchesKey prefix slaveKey = true
                ∧ ParseUint (Data v) = Some id.
Proof.
  induction pairs as [|[slaveKey v] pairs IH]; simpl; [done|].
  destruct (prefixMatchesKey prefix slaveKey) eqn:Hm.
  - destruct (ParseUint (Data v)) as [n|] eqn:Hn.
    + intros [= <-]. exists slaveKey, v. split_and!; [left|done|done].
    + intros (k' & v' & ? & ?)%IH. exists k', v'. split; [by right|done].
  - intros (k' & v' & ? & ?)%IH. exists k', v'. split; [by right|done].
Qed.

(** C5: an ID that [Get] returns without an error is [NoID], or the
    decimal unsigned 64-bit number that is the value of a listed slave key
    matching the prefix [valuePrefix/key]. *)
Theorem Get_returns_parsed_slave_value k key s id s' calls :
  Get path_Join NoID k key s = ((id, None), s', calls) →
  id = NoID ∨
  ∃ pairs slaveKey v,
    let prefix := path_Join [valuePrefix k; GetKey key] in
    ListPrefix prefix s = ((pairs, None), s')
    ∧ (slaveKey, v) ∈ pairs
    ∧ prefixMatchesKey prefix slaveKey = true
    ∧ ParseUint (Data v) = Some id
    ∧ 0 ≤ id ≤ maxUint64.
Proof.
  unfold Get. run_store.
  destruct (ListPrefix _ s) as [[pairs [e|]] s1] eqn:Hlist; simpl; [done|].
  destruct (firstMatchingID _ pairs) as [n|] eqn:Hfirst; simpl;
    intros [= <- <- <-]; [right|by left].
  destruct (firstMatchingID_sound _ _ _ Hfirst) as (slaveKey & v & ? & ? & Hp).
  exists pairs, slaveKey, v. pose proof (ParseUint_range _ _ Hp).
  split_and!; (done || lia).
Qed.

(** [GetIfLocked] selects the ID the same way from the locked listing. *)
Lemma GetIfLocked_returns_parsed_slave_value k key lock s id s' calls :
  GetIfLocked path_Join NoID k key lock s = ((id, None), s', calls) →
  id = NoID ∨
  ∃ pairs slaveKey v,
    let prefix := path_Join [valuePrefix k; GetKey key] in
    ListPrefixIfLocked prefix lock s = ((pairs, None), s')
    ∧ (slaveKey, v) ∈ pairs
    ∧ prefixMatchesKey prefix slaveKey = true
    ∧ ParseUint (Data v) = Some id
    ∧ 0 ≤ id ≤ maxUint64.
Proof.
  unfold GetIfLocked. run_store.
  destruct (ListPrefixIfLocked _ lock s) as [[pairs [e|]] s1] eqn:Hlist; simpl; [done|].
  destruct (firstMatchingID _ pairs) as [n|] eqn:Hfirst; simpl;
    intros [= <- <- <-]; [right|by left].
  destruct (firstMatchingID_sound _ _ _ Hfirst) as (slaveKey & v & ? & ? & Hp).
  exists pairs, slaveKey, v. pose proof (ParseUint_range _ _ Hp).
  split_and!; (done || lia).
Qed.

(** The writes recorded: [UpdateKey] and [UpdateKeyIfLocked] write the master key with
    create-if-absent only; unless that call fails, they then write this
    node's slave key, with create-if-absent when [reliablyMissing] is set
    and with update-if-different otherwise; they write nothing else. *)
Theorem UpdateKey_mutations k id key (reliablyMissing : bool) s :
  let keyPath := path_Join [idPrefix k; ID_String id] in
  let valueKey := path_Join [valuePrefix k; GetKey key; suffix k] in
  let slaveWrite :=
    if reliablyMissing then CreateIfAbsent valueKey (ID_String id) true
    else UpdateIfDiffers valueKey (ID_String id) true in
  mutations (UpdateKey path_Join ID_String k id key reliablyMissing s).2 =
    CreateIfAbsent keyPath (GetKey key) false ::
    match (CreateOnly keyPath (GetKey key) false s).1.2 with
    | Some _ => []
    | None => [slaveWrite]
    end
  ∧ ∀ lock,
    mutations (UpdateKeyIfLocked path_Join ID_String k id key reliablyMissing lock s).2 =
      CreateIfAbsent keyPath (GetKey key) false ::
      match (CreateOnlyIfLocked keyPath (GetKey key) false lock s).1.2 with
      | Some _ => []
      | None => [slaveWrite]
      end.
Proof.
  split; [|intros lock]; unfold UpdateKey, UpdateKeyIfLocked; run_store.
  - destruct (CreateOnly _ _ false s) as [[ok [e|]] s1]; simpl; [done|].
    destruct reliablyMissing.
    + by destruct (CreateOnly _ _ true s1) as [[ok2 [e|]] s2].
    + by destruct (UpdateIfDifferent _ _ true s1) as [[ok2 [e|]] s2].
  - destruct (CreateOnlyIfLocked _ _ false lock s) as [[ok [e|]] s1]; simpl; [done|].
    destruct reliablyMissing.
    + by destruct (CreateOnly _ _ true s1) as [[ok2 [e|]] s2].
    + by destruct (UpdateIfDifferentIfLocked _ _ true lock s1) as [[ok2 [e|]] s2].
Qed.

(** C9: the one call of [Release] is the deletion of this node's slave key
    [valuePrefix/key/suffix]; the state it leaves and the error it returns
    are those of that deletion. *)
Theorem Release_deletes_own_slave_key_only k id key s :
  let valueKey := path_Join [valuePrefix k; GetKey key; suffix k] in
  (Release path_Join k id key s).2 = [CDelete valueKey (Delete valueKey s).1]
  ∧ mutations (Release path_Join k id key s).2 = [Deletion valueKey]
  ∧ (Release path_Join k id key s).1 = Delete valueKey s.
Proof.
  unfold Release. run_store.
  by destruct (Delete _ s) as [[e|] s1].
Qed.

End BackendFacts.

(** ** [ListAndWatch] *)

Section WatchFacts.
Context {K : Type} `{!AllocatorKey K}.
Variable NoID : ID.

Implicit Types (k : kvstoreBackend K) (event : KeyValueEvent).

(** An entry of the journal is the outcome of handling its event. *)
Lemma ListAndWatch_journal k events event acts :
  (event, acts) ∈ (ListAndWatch NoID k events).1 →
  event ∈ events ∧ watchEvent NoID k event = Returns acts.
Proof.
  induction events as [|e events IH]; simpl; [by intros ?%elem_of_nil|].
  destruct (watchEvent NoID k e) as [acts'|reason] eqn:He; simpl;
    [|by intros ?%elem_of_nil].
  destruct (ListAndWatch NoID k events) as [journal panic]; simpl in *.
  intros [[= -> ->]|Hin]%elem_of_cons.
  - split; [left|done].
  - destruct (IH Hin). split; [by right|done].
Qed.

Lemma len_empty_not_positive : (0 <? len EmptyString) = false.
Proof. reflexivity. Qed.

(** C8: for an event with an empty value and a type other than Delete,
    [ListAndWatch] calls neither [OnUpsert] nor [OnDelete]; unless the
    event is the ListDone sentinel, all it does is log, under the event's
    key. *)
Theorem ListAndWatch_ignores_empty_value k events event acts :
  (event, acts) ∈ (ListAndWatch NoID k events).1 →
  EvValue event = EmptyString →
  Typ event ≠ EventTypeDelete →
  (∀ id key, ¬ (OnUpsert id key ∈ acts) ∧ ¬ (OnDelete id key ∈ acts))
  ∧ (Typ event ≠ EventTypeListDone →
     ∀ a, a ∈ acts →
       ∃ msg, a = LogWarn msg (Key event) ∨ a = LogError msg (Key event)).
Proof.
  intros [_ Hrun]%ListAndWatch_journal Hempty Htyp.
  unfold watchEvent in Hrun. rewrite Hempty, len_empty_not_positive in Hrun.
  destruct (Typ event) eqn:Ht; try done;
    try (destruct (keyToID NoID k (Key event)) as [[id [e|]]|]; try done;
         try case_bool_decide);
    injection Hrun as <-;
    (split;
     [intros id' key'; split; intros Hin; repeat (apply elem_of_cons in Hin as [?|Hin]; [done|]);
      by apply elem_of_nil in Hin
     |intros Hld a Hin; try done;
      repeat (apply elem_of_cons in Hin as [->|Hin]; [eauto|]);
      by apply elem_of_nil in Hin]).
Qed.

(** Every mapping handed to [OnUpsert] is built from the non-empty value of
    its event. *)
Lemma ListAndWatch_upsert_value k events event acts id key :
  (event, acts) ∈ (ListAndWatch NoID k events).1 →
  OnUpsert id key ∈ acts →
  key = Some (PutKey (keyType k) (EvValue event)) ∧ EvValue event ≠ EmptyString.
Proof.
  intros [_ Hrun]%ListAndWatch_journal Hin.
  unfold watchEvent in Hrun.
  assert (∀ x : action K, x ∈ ([] : list (action K)) → False) as Hnil
    by (intros ? ?%elem_of_nil; done).
  destruct (Typ event) eqn:Ht;
    try (destruct (keyToID NoID k (Key event)) as [[id' [e|]]|]; try done;
         try case_bool_decide;
         try destruct (0 <? len (EvValue event)) eqn:Hlen);
    injection Hrun as <-;
    repeat (apply elem_of_cons in Hin as [Heq|Hin]; [try done|]);
    try (by apply Hnil in Hin).
  all: injection Heq as -> ->; split; [done|];
    intros Hv; by rewrite Hv in Hlen.
Qed.

End WatchFacts.

(** ** [RunLocksGC] *)

Section LocksGCFacts.
Context {St LockT K : Type}.
Context `{!BackendOperations St LockT}.

Implicit Types (k : kvstoreBackend K) (s : St) (prev acc m : gmap string Value).

(** One pass of the loop body: a deletion is tried exactly for an
    unchanged lock, and the lock is recorded unless the deletion
    succeeded. *)
Lemma locksGCEntry_pass prev lockKey v acc s :
  locksGCEntry (LockT := LockT) prev (lockKey, v) acc s =
    if lockUnchanged prev lockKey v then
      let '(err, s1) := Delete lockKey s in
      (inl match err with
           | None => acc
           | Some _ => <[lockKey := staleLock v]> acc
           end, s1, [CDelete lockKey err])
    else (inl (<[lockKey := staleLock v]> acc), s, []).
Proof.
  unfold locksGCEntry, lockUnchanged. run_store.
  destruct (prev !! lockKey) as [pv|]; [|done].
  destruct (_ && _); [|done].
  by destruct (Delete lockKey s) as [[e|] s1].
Qed.

(** The loop of [RunLocksGC] over the listed locks. *)
Lemma locksGC_loop prev (l : KeyValuePairs) acc s :
  ∃ m s' calls,
    forRange (R := Empty_set) (locksGCEntry (LockT := LockT) prev) l acc s
      = (inl m, s', calls)
    ∧ (∀ lockKey err, CDelete lockKey err ∈ calls →
         ∃ v, (lockKey, v) ∈ l ∧ lockUnchanged prev lockKey v = true)
    ∧ (∀ lockKey v, (lockKey, v) ∈ l → lockUnchanged prev lockKey v = true →
         ∃ err, CDelete lockKey err ∈ calls)
    ∧ (∀ lockKey, lockKey ∉ l.*1 → m !! lockKey = acc !! lockKey)
    ∧ (NoDup l.*1 → ∀ lockKey v, (lockKey, v) ∈ l →
         (CDelete lockKey None ∈ calls ∧ m !! lockKey = acc !! lockKey)
         ∨ (¬ (CDelete lockKey None ∈ calls) ∧ m !! lockKey = Some (staleLock v))).
Proof.
  revert acc s. induction l as [|[key0 v0] l IH]; intros acc s.
  { exists acc, s, []. split; [done|].
    split_and!; try done; intros; exfalso; eapply not_elem_of_nil; eauto. }
  cbn [forRange]. unfold mbind, M_bind, bind.
  rewrite locksGCEntry_pass.
  destruct (lockUnchanged prev key0 v0) eqn:Hu.
  - destruct (Delete key0 s) as [err s1].
    destruct (IH (match err with None => acc | Some _ => <[key0:=staleLock v0]> acc end) s1)
      as (m & s' & calls & -> & Hdel & Htried & Hout & Hin).
    exists m, s', ([CDelete key0 err] ++ calls). split; [done|].
    split_and!.
    + intros lockKey e [[= -> ->]|Hc]%elem_of_cons.
      * exists v0. split; [left|done].
      * destruct (Hdel _ _ Hc) as (v & ? & ?). exists v. split; [by right|done].
    + intros lockKey v [[= -> ->]|Hl]%elem_of_cons Hm.
      * exists err. left.
      * destruct (Htried _ _ Hl Hm) as [e ?]. exists e. by right.
    + intros lockKey [Hne Hnot]%not_elem_of_cons. rewrite Hout by done.
      simpl in Hne. destruct err; [by rewrite lookup_insert_ne|done].
    + intros [Hfresh Hnd]%NoDup_cons lockKey v [[= -> ->]|Hl]%elem_of_cons.
      * rewrite Hout by done.
        assert (CDelete key0 None ∉ calls) as Hnone.
        { intros (v & Hv & _)%Hdel. apply Hfresh.
          apply list_elem_of_fmap. by exists (key0, v). }
        destruct err as [e|].
        -- right. split; [|by rewrite lookup_insert_eq].
           by intros [[=]|?]%elem_of_cons.
        -- left. split; [left|done].
      * assert (lockKey ≠ key0) as Hne.
        { intros ->. apply Hfresh. apply list_elem_of_fmap. by exists (key0, v). }
        destruct (Hin Hnd _ _ Hl) as [[Hc Hm]|[Hc Hm]]; [left|right].
        -- split; [by right|]. rewrite Hm.
           destruct err; [by rewrite lookup_insert_ne|done].
        -- split; [|done]. by intros [[=]|?]%elem_of_cons.
  - destruct (IH (<[key0:=staleLock v0]> acc) s)
      as (m & s' & calls & -> & Hdel & Htried & Hout & Hin).
    exists m, s', ([] ++ calls). split; [done|]. simpl.
    split_and!.
    + intros lockKey e Hc. destruct (Hdel _ _ Hc) as (v & ? & ?).
      exists v. split; [by right|done].
    + intros lockKey v [[= -> ->]|Hl]%elem_of_cons Hm; [congruence|].
      by apply (Htried _ _ Hl).
    + intros lockKey [Hne Hnot]%not_elem_of_cons. rewrite Hout by done.
      by rewrite lookup_insert_ne.
    + intros [Hfresh Hnd]%NoDup_cons lockKey v [[= -> ->]|Hl]%elem_of_cons.
      * right. rewrite Hout by done. split; [|by rewrite lookup_insert_eq].
        intros (v & Hv & _)%Hdel. apply Hfresh.
        apply list_elem_of_fmap. by exists (key0, v).
      * assert (lockKey ≠ key0) as Hne.
        { intros ->. apply Hfresh. apply list_elem_of_fmap. by exists (key0, v). }
        destruct (Hin Hnd _ _ Hl) as [[Hc Hm]|[Hc Hm]]; [left|right]; [|done].
        split; [done|]. by rewrite Hm, lookup_insert_ne.
Qed.

Lemma lockUnchanged_true prev lockKey v :
  lockUnchanged prev lockKey v = true ↔
  ∃ pv, prev !! lockKey = Some pv ∧ ModRevision pv = ModRevision v
        ∧ LeaseID pv = LeaseID v.
Proof.
  unfold lockUnchanged. destruct (prev !! lockKey) as [pv|].
  - rewrite andb_true_iff, !Z.eqb_eq. split.
    + intros [? ?]. by exists pv.
    + by intros (? & [= <-] & ? & ?).
  - split; [done|]. by intros (? & ? & _).
Qed.

(** The calls recorded: [RunLocksGC] tries to delete a lock exactly when the lock is listed
    and the previous round recorded it with the same ModRevision and the
    same LeaseID, so a lock is deleted exactly when that holds and the
    deletion succeeds; and when the listing succeeds, the returned map
    holds exactly the listed locks that were not deleted, each with the
    ModRevision and LeaseID just listed. *)
Theorem RunLocksGC_two_phase k prev s allocated listErr s0 :
  ListPrefix (lockPrefix k) s = ((allocated, listErr), s0) →
  let calls := (RunLocksGC k prev s).2 in
  (∀ lockKey err, CDelete lockKey err ∈ calls →
     listErr = None ∧
     ∃ v pv, (lockKey, v) ∈ allocated ∧ prev !! lockKey = Some pv
             ∧ ModRevision pv = ModRevision v ∧ LeaseID pv = LeaseID v)
  ∧ (listErr = None →
     ∀ lockKey v pv, (lockKey, v) ∈ allocated → prev !! lockKey = Some pv →
       ModRevision pv = ModRevision v → LeaseID pv = LeaseID v →
       ∃ err, CDelete lockKey err ∈ calls)
  ∧ (listErr = None → NoDup allocated.*1 →
     ∃ m, (RunLocksGC k prev s).1.1 = (Some m, None)
       ∧ (∀ lockKey v, (lockKey, v) ∈ allocated →
            ¬ (CDelete lockKey None ∈ calls) →
            m !! lockKey = Some (staleLock v))
       ∧ (∀ lockKey, CDelete lockKey None ∈ calls → m !! lockKey = None)
       ∧ (∀ lockKey, lockKey ∉ allocated.*1 → m !! lockKey = None)).
Proof.
  intros Hlist. unfold RunLocksGC. run_store. rewrite Hlist. simpl.
  destruct listErr as [e|]; simpl.
  { split_and!; try done. by intros lockKey err [[=]|?%elem_of_nil]%elem_of_cons. }
  destruct (locksGC_loop prev allocated ∅ s0)
    as (m & s' & calls & Hrun & Hdel & Htried & Hout & Hin).
  rewrite Hrun. simpl. split_and!.
  - intros lockKey err [[=]|Hc]%elem_of_cons. rewrite app_nil_r in Hc.
    split; [done|]. destruct (Hdel _ _ Hc) as (v & Hv & Hu).
    apply lockUnchanged_true in Hu as (pv & ? & ? & ?). by exists v, pv.
  - intros _ lockKey v pv Hv Hp Hrev Hlease.
    destruct (Htried lockKey v Hv) as [err Hc].
    { apply lockUnchanged_true. by exists pv. }
    exists err. right. by rewrite app_nil_r.
  - intros _ Hnd. exists m. rewrite app_nil_r. split; [done|]. split_and!.
    + intros lockKey v Hv Hnot.
      destruct (Hin Hnd _ _ Hv) as [[Hc _]|[_ Hm]]; [|done].
      destruct Hnot. by right.
    + intros lockKey [[=]|Hc]%elem_of_cons.
      destruct (Hdel _ _ Hc) as (v & Hv & _).
      destruct (Hin Hnd _ _ Hv) as [[_ Hm]|[Hnot _]]; [by rewrite Hm|done].
    + intros lockKey Hnot. by rewrite Hout.
Qed.

End LocksGCFacts.

(** ** [RunGC] *)

Section GCFacts.
Context {St LockT K : Type}.
Context `{!BackendOperations St LockT, !Limiter St}.
Variable path_Join : list string → string.

Implicit Types (k : kvstoreBackend K) (s : St) (prev m : gmap string Z).
Implicit Types (acc : gmap string Z * Z) (l : KeyValuePairs).

Local Abbreviation body k prev min max :=
  (gcEntry (LockT := LockT) path_Join k prev min max).
Local Abbreviation pass k prev min max :=
  (gcPass (LockT := LockT) path_Join k prev min max).

(** Every run of the loop body is one of the passes. *)
Lemma gcEntry_pass k prev min max masterKey v acc s :
  pass k prev min max masterKey v acc
    (body k prev min max (masterKey, v) acc s).1.1
    (body k prev min max (masterKey, v) acc s).2.
Proof.
  unfold gcEntry. destruct acc as [staleKeys deletedEntries].
  pose proof (gcSkipped (LockT := LockT) path_Join k prev min max
                masterKey v (staleKeys, deletedEntries)) as Hskip.
  unfold gcInScope in Hskip.
  assert (gcInScope min max masterKey = true →
          gcInScope min max masterKey = true) as Hscope by done.
  unfold gcInScope in Hscope at 1.
  destruct (last (Split masterKey slash)) as [item|]; [|by apply Hskip].
  destruct (ParseUint item) as [identityID|]; [|by apply Hskip].
  destruct ((identityID <? min) || (max <? identityID)); [by apply Hskip|].
  specialize (Hscope eq_refl). clear Hskip.
  unfold lockPath. run_store.
  destruct (LockPath _ s) as [[lock [e|]] s1]; simpl.
  { by apply gcLockFailed. }
  destruct (ListPrefixIfLocked _ lock s1) as [[pairs [e|]] s2]; simpl.
  { destruct (Unlock lock s2) as [u s3]; simpl. by apply gcListFailed. }
  destruct (hasUsers _ pairs) eqn:Husers; simpl.
  { destruct (Unlock lock s2) as [u s3]; simpl. by apply gcInUse. }
  destruct (prev !! masterKey) as [modRev|] eqn:Hprev; simpl.
  - destruct (Z.eqb_spec modRev (ModRevision v)) as [->|Hne]; simpl.
    + destruct (DeleteIfLocked masterKey lock s2) as [err s3]; simpl.
      destruct err as [e|]; simpl;
        destruct (Unlock lock s3) as [u s4]; simpl;
        destruct (Wait s4) as [w s5]; simpl.
      * pose proof (gcDeleting path_Join k prev min max masterKey v
                      (staleKeys, deletedEntries) lock pairs (Some e) u w
                      Hscope Husers Hprev) as Hd.
        by destruct w.
      * pose proof (gcDeleting path_Join k prev min max masterKey v
                      (staleKeys, deletedEntries) lock pairs None u w
                      Hscope Husers Hprev) as Hd.
        by destruct w.
    + destruct (Unlock lock s2) as [u s3]; simpl. by eapply gcReused.
  - destruct (Unlock lock s2) as [u s3]; simpl.
    by apply (gcMarked path_Join k prev min max masterKey v
                (staleKeys, deletedEntries)).
Qed.

Lemma forRange_cons {A Acc R} (f : A → Acc → M St LockT (Acc + R)) x (xs : list A) a s :
  forRange f (x :: xs) a s =
    let '(r, s1, c1) := f x a s in
    match r with
    | inl a' => let '(r', s2, c2) := forRange f xs a' s1 in (r', s2, c1 ++ c2)
    | inr res => (inr res, s1, c1 ++ [])
    end.
Proof.
  cbn [forRange]. unfold mbind, M_bind, bind.
  destruct (f x a s) as [[[a'|res] s1] c1]; [|done].
  by destruct (forRange f xs a' s1) as [[r' s2] c2].
Qed.

(** The calls of a loop are those of its passes, in order. *)
Lemma journal_flat {Acc R} (f : string * Value → Acc → M St LockT (Acc + R)) l a s :
  (forRange f l a s).2 = concat (journal f l a s).*2.
Proof.
  revert a s. induction l as [|x l IH]; intros a s; [done|].
  rewrite forRange_cons. cbn [journal].
  destruct (f x a s) as [[[a'|res] s1] c1]; simpl; [|done].
  specialize (IH a' s1).
  destruct (forRange f l a' s1) as [[r' s2] c2]. simpl in *. by rewrite IH.
Qed.

Lemma journal_entry {Acc R} (f : string * Value → Acc → M St LockT (Acc + R))
    l a s masterKey v calls :
  (masterKey, v, calls) ∈ journal f l a s → (masterKey, v) ∈ l.
Proof.
  revert a s. induction l as [|[key0 v0] l IH]; intros a s; cbn [journal].
  { by intros ?%elem_of_nil. }
  destruct (f (key0, v0) a s) as [[[a'|res] s1] c1]; simpl.
  - intros [[= -> -> ->]|Hin]%elem_of_cons; [left|right; eauto].
  - intros [[= -> -> ->]|Hin%elem_of_nil]%elem_of_cons; [left|done].
Qed.

Lemma hasUsers_false valueKeyPrefix (pairs : KeyValuePairs) :
  hasUsers valueKeyPrefix pairs = false ↔
  ∀ slaveKey sv, (slaveKey, sv) ∈ pairs →
    prefixMatchesKey valueKeyPrefix slaveKey = false.
Proof.
  unfold hasUsers. induction pairs as [|[k0 v0] pairs IH]; simpl.
  { split; [|done]. by intros _ ? ? ?%elem_of_nil. }
  rewrite orb_false_iff, IH. split.
  - intros [Hk Hrest] slaveKey sv [[= -> ->]|Hin]%elem_of_cons; eauto.
  - intros Hall. split; [apply (Hall k0 v0); left|].
    intros slaveKey sv Hin. apply (Hall slaveKey sv). by right.
Qed.

(** A key out of scope is passed over: no call, no change of the loop
    state. *)
Lemma gcEntry_out_of_scope k prev min max masterKey v acc s :
  gcInScope min max masterKey = false →
  body k prev min max (masterKey, v) acc s = (inl acc, s, []).
Proof.
  unfold gcInScope, gcEntry. destruct acc as [staleKeys deletedEntries].
  destruct (last (Split masterKey slash)) as [item|]; [|done].
  destruct (ParseUint item) as [identityID|]; [|done].
  by destruct ((identityID <? min) || (max <? identityID)).
Qed.

(** Decide membership in the explicit list of calls of a pass. *)
Ltac in_pass H :=
  repeat (apply elem_of_cons in H as [H|H]; [try discriminate H|]);
  try (apply elem_of_nil in H; destruct H).

(** In a deleting pass that lets the loop go on, the limiter did not fail. *)
Ltac waited :=
  match goal with
  | H : match ?w with Some _ => _ | None => _ end = inl _ |- _ =>
      destruct w; [discriminate H|]; injection H as <-
  end.

(** Split the run of the loop over a non-empty listing into its first pass
    and the rest. *)
Ltac first_pass k prev min max key0 v0 acc s Hp :=
  rewrite forRange_cons;
  pose proof (gcEntry_pass k prev min max key0 v0 acc s) as Hp;
  destruct (body k prev min max (key0, v0) acc s) as [[r0 s1] c1];
  cbn [fst snd] in Hp.

(** Every deletion in the loop is the third call of a pass that took the
    lock of a key in scope, listed its slave keys without finding a
    matching one, and found the key marked at the same ModRevision. *)
Lemma gc_loop_deletions k prev min max l acc s masterKey lock err :
  CDeleteIfLocked masterKey lock err ∈ (forRange (body k prev min max) l acc s).2 →
  ∃ v pairs u pre post,
    (forRange (body k prev min max) l acc s).2 =
      pre ++ [CLockPath (lockPathName path_Join k masterKey) lock None;
              CListPrefixIfLocked (path_Join [valuePrefix k; Data v]) lock pairs None;
              CDeleteIfLocked masterKey lock err;
              CUnlock lock u] ++ post
    ∧ (masterKey, v) ∈ l
    ∧ gcInScope min max masterKey = true
    ∧ hasUsers (path_Join [valuePrefix k; Data v]) pairs = false
    ∧ prev !! masterKey = Some (ModRevision v).
Proof.
  revert acc s. induction l as [|[key0 v0] l IH]; intros acc s.
  { by intros ?%elem_of_nil. }
  first_pass k prev min max key0 v0 acc s Hp.
  assert (CDeleteIfLocked masterKey lock err ∈ c1 →
          ∃ pairs u w,
            c1 = [CLockPath (lockPathName path_Join k masterKey) lock None;
                  CListPrefixIfLocked (path_Join [valuePrefix k; Data v0]) lock pairs None;
                  CDeleteIfLocked masterKey lock err;
                  CUnlock lock u; CWait w]
            ∧ key0 = masterKey
            ∧ gcInScope min max masterKey = true
            ∧ hasUsers (path_Join [valuePrefix k; Data v0]) pairs = false
            ∧ prev !! masterKey = Some (ModRevision v0)) as Hhead.
  { intros Hin. inversion Hp; subst; in_pass Hin.
    injection Hin as -> -> ->. by eexists _, _, _. }
  destruct r0 as [acc'|e].
  - specialize (IH acc' s1).
    destruct (forRange (body k prev min max) l acc' s1) as [[r' s2] c2].
    cbn [snd] in *. intros [Hin|Hin]%elem_of_app.
    + destruct (Hhead Hin) as (pairs & u & w & -> & -> & ? & ? & ?).
      exists v0, pairs, u, [], (CWait w :: c2). split_and!; try done. left.
    + destruct (IH Hin) as (v & pairs & u & pre & post & -> & ? & ? & ? & ?).
      exists v, pairs, u, (c1 ++ pre), post. rewrite <- app_assoc.
      split_and!; try done. by right.
  - cbn [snd]. rewrite app_nil_r. intros Hin.
    destruct (Hhead Hin) as (pairs & u & w & -> & -> & ? & ? & ?).
    exists v0, pairs, u, [], [CWait w]. split_and!; try done. left.
Qed.

(** A key recorded by the loop was recorded before, or is a listed key in
    scope that the previous round had not marked, recorded with the
    ModRevision listed. *)
Lemma gc_loop_recorded k prev min max l acc s m d masterKey rev :
  (forRange (body k prev min max) l acc s).1.1 = inl (m, d) →
  m !! masterKey = Some rev →
  acc.1 !! masterKey = Some rev
  ∨ ∃ v, (masterKey, v) ∈ l ∧ gcInScope min max masterKey = true
         ∧ prev !! masterKey = None ∧ rev = ModRevision v.
Proof.
  revert acc s. induction l as [|[key0 v0] l IH]; intros acc s.
  { simpl. intros [= ->] ?. by left. }
  first_pass k prev min max key0 v0 acc s Hp.
  destruct r0 as [acc'|e]; [|done].
  specialize (IH acc' s1).
  destruct (forRange (body k prev min max) l acc' s1) as [[r' s2] c2].
  cbn [fst] in *. intros Hr Hm.
  destruct (IH Hr Hm) as [Hacc|(v & ? & ? & ? & ?)].
  2:{ right. exists v. split_and!; try done. by right. }
  inversion Hp; subst; try (by left).
  - simpl in Hacc. destruct (decide (key0 = masterKey)) as [->|Hne].
    + rewrite lookup_insert_eq in Hacc. injection Hacc as <-.
      right. exists v0. split_and!; try done. left.
    + rewrite lookup_insert_ne in Hacc by done. by left.
  - waited. by left.
Qed.

(** The loop leaves alone the entries of keys it does not visit. *)
Lemma gc_loop_untouched k prev min max l acc s m d masterKey :
  (forRange (body k prev min max) l acc s).1.1 = inl (m, d) →
  masterKey ∉ l.*1 →
  m !! masterKey = acc.1 !! masterKey.
Proof.
  revert acc s. induction l as [|[key0 v0] l IH]; intros acc s.
  { simpl. intros [= Heq] _. by rewrite Heq. }
  first_pass k prev min max key0 v0 acc s Hp.
  destruct r0 as [acc'|e]; [|done].
  specialize (IH acc' s1).
  destruct (forRange (body k prev min max) l acc' s1) as [[r' s2] c2].
  cbn [fst] in *. intros Hr [Hne Hnot]%not_elem_of_cons. simpl in Hne.
  rewrite (IH Hr Hnot).
  inversion Hp; subst; try done.
  - simpl. by rewrite lookup_insert_ne.
  - by waited.
Qed.

(** A listed key found unused and not marked by the previous round is
    recorded with the ModRevision listed. *)
Lemma gc_loop_marked k prev min max l acc s m d masterKey v calls :
  NoDup l.*1 →
  (forRange (body k prev min max) l acc s).1.1 = inl (m, d) →
  (masterKey, v, calls) ∈ journal (body k prev min max) l acc s →
  foundUnused path_Join k masterKey v calls →
  prev !! masterKey = None →
  m !! masterKey = Some (ModRevision v).
Proof.
  intros Hnd Hr Hin (lock & pairs & rest & -> & Hu) Hprev.
  revert acc s Hnd Hr Hin. induction l as [|[key0 v0] l IH]; intros acc s.
  { by intros _ _ ?%elem_of_nil. }
  cbn [journal]. first_pass k prev min max key0 v0 acc s Hp.
  intros [Hfresh Hnd]%NoDup_cons. destruct r0 as [acc'|e]; [|done].
  pose proof (gc_loop_untouched k prev min max l acc' s1) as Hrest.
  specialize (IH acc' s1 Hnd).
  destruct (forRange (body k prev min max) l acc' s1) as [[r' s2] c2].
  cbn [fst snd] in *. intros Hr [[= <- <- <-]|Hin]%elem_of_cons; [|by apply IH].
  rewrite (Hrest m d masterKey Hr Hfresh).
  inversion Hp; subst; try congruence.
  simpl. by rewrite lookup_insert_eq.
Qed.

Lemma RunGC_calls k prev min max s allocated s0 :
  ListPrefix (idPrefix k) s = ((allocated, None), s0) →
  (RunGC path_Join k prev min max s).2 =
    CListPrefix (idPrefix k) allocated None ::
    (forRange (body k prev min max) allocated (∅, 0) s0).2.
Proof.
  intros Hlist. unfold RunGC. run_store. rewrite Hlist. simpl.
  destruct (forRange _ allocated (∅, 0) s0) as [[[[m d]|e] s1] c1]; simpl;
    by rewrite app_nil_r.
Qed.

Lemma RunGC_result k prev min max s allocated s0 m stats :
  ListPrefix (idPrefix k) s = ((allocated, None), s0) →
  (RunGC path_Join k prev min max s).1.1 = (Some m, stats, None) →
  ∃ d, (forRange (body k prev min max) allocated (∅, 0) s0).1.1 = inl (m, d).
Proof.
  intros Hlist. unfold RunGC. run_store. rewrite Hlist. simpl.
  destruct (forRange _ allocated (∅, 0) s0) as [[[[m' d]|e] s1] c1]; simpl;
    [|done].
  intros [= -> _]. by exists d.
Qed.

(** The guarded deletions: every deletion of a master key by [RunGC] is issued under the lock
    of that key, taken in the same pass, after the locked listing of the
    slave keys under [valuePrefix/value] returned no key matching that
    prefix, for a listed key in scope that the previous round recorded
    with the ModRevision now listed. *)
Theorem RunGC_deletes_only_marked_unused k prev min max s masterKey lock err :
  CDeleteIfLocked masterKey lock err ∈ (RunGC path_Join k prev min max s).2 →
  ∃ allocated v pairs u pre post,
    let valueKeyPrefix := path_Join [valuePrefix k; Data v] in
    (RunGC path_Join k prev min max s).2 =
      CListPrefix (idPrefix k) allocated None ::
      pre ++ [CLockPath (lockPathName path_Join k masterKey) lock None;
              CListPrefixIfLocked valueKeyPrefix lock pairs None;
              CDeleteIfLocked masterKey lock err;
              CUnlock lock u] ++ post
    ∧ (masterKey, v) ∈ allocated
    ∧ gcInScope min max masterKey = true
    ∧ (∀ slaveKey sv, (slaveKey, sv) ∈ pairs →
         prefixMatchesKey valueKeyPrefix slaveKey = false)
    ∧ prev !! masterKey = Some (ModRevision v).
Proof.
  destruct (ListPrefix (idPrefix k) s) as [[allocated [e|]] s0] eqn:Hlist.
  { unfold RunGC. run_store. rewrite Hlist. simpl.
    by intros [[=]|?%elem_of_nil]%elem_of_cons. }
  rewrite (RunGC_calls _ _ _ _ _ _ _ Hlist).
  intros [[=]|Hin]%elem_of_cons.
  destruct (gc_loop_deletions _ _ _ _ _ _ _ _ _ _ Hin)
    as (v & pairs & u & pre & post & -> & ? & ? & Hu & ?).
  exists allocated, v, pairs, u, pre, post.
  split_and!; try done. by apply hasUsers_false.
Qed.

(** C6: [RunGC] passes over a master key whose last path segment parses as
    a number below [min] or above [max]: the pass issues no call (no lock,
    no listing, no deletion) and leaves the state and the loop state as
    they are, the loop runs as if the key were not listed, no run deletes
    the key, and no run records it in the map it returns. *)
Theorem RunGC_skips_out_of_range k prev min max masterKey v item identityID :
  last (Split masterKey slash) = Some item →
  ParseUint item = Some identityID →
  identityID < min ∨ max < identityID →
  (∀ acc s, body k prev min max (masterKey, v) acc s = (inl acc, s, []))
  ∧ (∀ l1 l2 acc s,
       forRange (body k prev min max) (l1 ++ (masterKey, v) :: l2) acc s =
       forRange (body k prev min max) (l1 ++ l2) acc s)
  ∧ (∀ s lock err,
       ¬ (CDeleteIfLocked masterKey lock err ∈ (RunGC path_Join k prev min max s).2))
  ∧ (∀ s m stats err,
       (RunGC path_Join k prev min max s).1.1 = (Some m, stats, err) →
       m !! masterKey = None).
Proof.
  intros Hlast Hparse Hrange.
  assert (gcInScope min max masterKey = false) as Hout.
  { unfold gcInScope. rewrite Hlast, Hparse. apply negb_false_iff, orb_true_iff.
    destruct Hrange; [left|right]; by apply Z.ltb_lt. }
  split_and!.
  - intros acc s. by apply gcEntry_out_of_scope.
  - intros l1 l2. induction l1 as [|x l1 IH]; intros acc s; simpl app.
    + rewrite forRange_cons, gcEntry_out_of_scope by done.
      destruct (forRange _ l2 acc s) as [[r' s2] c2]. done.
    + rewrite !forRange_cons.
      destruct (body k prev min max x acc s) as [[[acc'|e] s1] c1]; [|done].
      by rewrite IH.
  - intros s lock err Hin.
    destruct (ListPrefix (idPrefix k) s) as [[allocated [e|]] s0] eqn:Hlist.
    { unfold RunGC in Hin. run_store. rewrite Hlist in Hin. simpl in Hin.
      by apply elem_of_cons in Hin as [[=]|?%elem_of_nil]. }
    rewrite (RunGC_calls _ _ _ _ _ _ _ Hlist) in Hin.
    apply elem_of_cons in Hin as [[=]|Hin].
    destruct (gc_loop_deletions _ _ _ _ _ _ _ _ _ _ Hin)
      as (? & ? & ? & ? & ? & _ & _ & ? & _). congruence.
  - intros s m stats err.
    destruct (ListPrefix (idPrefix k) s) as [[allocated [e|]] s0] eqn:Hlist.
    { unfold RunGC. run_store. by rewrite Hlist. }
    unfold RunGC. run_store. rewrite Hlist. simpl.
    destruct (forRange _ allocated (∅, 0) s0) as [[[[m' d]|e] s1] c1] eqn:Hloop;
      simpl; [|done].
    intros [= -> _ _].
    destruct (m !! masterKey) as [rev|] eqn:Hm; [|done].
    destruct (gc_loop_recorded k prev min max allocated (∅, 0) s0 m d masterKey rev)
      as [Hempty|(? & _ & ? & _)]; [by rewrite Hloop|done| |congruence].
    simpl in Hempty. by rewrite lookup_empty in Hempty.
Qed.

Lemma NoDup_fst_functional l (key : string) (v1 v2 : Value) :
  NoDup l.*1 → (key, v1) ∈ l → (key, v2) ∈ l → v1 = v2.
Proof.
  induction l as [|[key0 v0] l IH]; [by intros _ ?%elem_of_nil|].
  intros [Hfresh Hnd]%NoDup_cons [[= -> ->]|H1]%elem_of_cons [[= ->]|H2]%elem_of_cons;
    [done| | |by apply IH].
  - destruct Hfresh. apply list_elem_of_fmap. by exists (key0, v2).
  - simplify_eq. destruct Hfresh. apply list_elem_of_fmap. by exists (key0, v1).
Qed.

(** C4 (amended): when [RunGC] returns its map, a listed master key that a
    pass found unused (lock taken, slave keys listed, none matching) is in
    the map, with the ModRevision listed, if the previous round had not
    marked it; if the previous round had marked it under another
    ModRevision, it is neither in the map nor deleted. *)
Theorem RunGC_marks_first_seen_unused k prev min max s allocated s0 m stats
    masterKey v calls :
  ListPrefix (idPrefix k) s = ((allocated, None), s0) →
  NoDup allocated.*1 →
  (RunGC path_Join k prev min max s).1.1 = (Some m, stats, None) →
  (masterKey, v, calls) ∈ journal (body k prev min max) allocated (∅, 0) s0 →
  foundUnused path_Join k masterKey v calls →
  (prev !! masterKey = None → m !! masterKey = Some (ModRevision v))
  ∧ (∀ modRev, prev !! masterKey = Some modRev → modRev ≠ ModRevision v →
       m !! masterKey = None
       ∧ ∀ lock err,
           ¬ (CDeleteIfLocked masterKey lock err
              ∈ (RunGC path_Join k prev min max s).2)).
Proof.
  intros Hlist Hnd Hres Hin Hunused.
  destruct (RunGC_result _ _ _ _ _ _ _ _ _ Hlist Hres) as [d Hloop].
  split.
  - intros Hprev. by eapply gc_loop_marked.
  - intros modRev Hprev Hne. split.
    + destruct (m !! masterKey) as [rev|] eqn:Hm; [|done].
      destruct (gc_loop_recorded _ _ _ _ _ _ _ _ _ _ _ Hloop Hm)
        as [Hempty|(? & _ & _ & ? & _)]; [|congruence].
      simpl in Hempty. by rewrite lookup_empty in Hempty.
    + intros lock err. rewrite (RunGC_calls _ _ _ _ _ _ _ Hlist).
      intros [[=]|Hdel]%elem_of_cons.
      destruct (gc_loop_deletions _ _ _ _ _ _ _ _ _ _ Hdel)
        as (v' & _ & _ & _ & _ & _ & Hv' & _ & _ & Hmarked).
      apply journal_entry in Hin.
      rewrite (NoDup_fst_functional _ _ _ _ Hnd Hv' Hin) in Hmarked. congruence.
Qed.

End GCFacts.

(** ** The methods on concrete stores *)

Module Scenarios.
Import MemStore.

(** C10 at a concrete key: the master-key prefix itself. *)
Example keyToID_of_prefix :
  keyToID 0 backend "b/id" = Panics "index out of range [0] with length 0".
Proof. reflexivity. Qed.

Example keyToID_of_master_key :
  keyToID 0 backend "b/id/300" = Returns (300, None).
Proof. reflexivity. Qed.

Example keyToID_of_foreign_key :
  keyToID 0 backend "c/id/300"
  = Returns (0, Some (ErrInvalidKeyOutsidePrefix "c/id/300" "b/id")).
Proof. reflexivity. Qed.

(** The panic reaches [ListAndWatch] when the watch delivers such a key. *)
Example ListAndWatch_of_prefix_key :
  ListAndWatch 0 backend
    [mkEvent EventTypeCreate "b/id/300" "k"; mkEvent EventTypeCreate "b/id" "k"]
  = ([(mkEvent EventTypeCreate "b/id/300" "k", [OnUpsert 300 (Some "k")])],
     Some "index out of range [0] with length 0").
Proof. reflexivity. Qed.

(** Two rounds of GC delete an unused master key: the first marks it, the
    second deletes it. *)
Example RunGC_two_rounds :
  let run1 := RunGC join backend ∅ minID maxID unusedMaster in
  run1.1.1 = (Some {["b/id/300" := 7]}, Some {| Alive := 1; Deleted := 0 |}, None)
  ∧ let run2 := RunGC join backend {["b/id/300" := 7]} minID maxID run1.1.2 in
    run2.1.1 = (Some ∅, Some {| Alive := 0; Deleted := 1 |}, None)
    ∧ lookup run2.1.2 "b/id/300" = None.
Proof. vm_compute. done. Qed.

(** A slave key written between the rounds keeps the master key. *)
Example RunGC_reference_between_rounds :
  let run2 := RunGC join backend {["b/id/300" := 7]} minID maxID usedMaster in
  run2.1.1 = (Some ∅, Some {| Alive := 1; Deleted := 0 |}, None)
  ∧ lookup run2.1.2 "b/id/300" = Some (val "k" 7 0)
  ∧ mutations run2.2 = [].
Proof. vm_compute. done. Qed.

(** [UpdateKey] leaves an existing master key with another value as it
    is. *)
Example UpdateKey_keeps_master_key :
  let run := UpdateKey join idString backend 300 "other" false unusedMaster in
  lookup run.1.2 "b/id/300" = Some (val "k" 7 0)
  ∧ lookup run.1.2 "b/value/other/n1" = Some (val "300" 101 1).
Proof. vm_compute. done. Qed.

(** [Release] removes the slave key of this node and nothing else. *)
Example Release_frame :
  let s := store_of [("b/id/300", val "k" 7 0); ("b/value/k/n1", val "300" 8 1);
                     ("b/value/k/n2", val "300" 9 1)] in
  entries (Release join backend 300 "k" s).1.2
  = [("b/id/300", val "k" 7 0); ("b/value/k/n2", val "300" 9 1)].
Proof. reflexivity. Qed.

Lemma lookup_remove_other (l : KeyValuePairs) (removed other : string) :
  other ≠ removed →
  List.find (λ kv, String.eqb kv.1 other) (remove removed l)
  = List.find (λ kv, String.eqb kv.1 other) l.
Proof.
  intros Hne. unfold remove. induction l as [|[key0 v0] l IH]; simpl; [done|].
  destruct (String.eqb_spec key0 removed) as [->|Hkeep]; simpl.
  - destruct (String.eqb_spec removed other); [congruence|done].
  - by rewrite IH.
Qed.

(** On the in-memory store, [Release] leaves every key other than this
    node's slave key as it is: master keys, slave keys of other nodes, slave
    keys of other canonical keys. *)
Lemma Release_keeps_other_keys (s : store) (id : ID) (key other : string) :
  other ≠ join [valuePrefix backend; key; suffix backend] →
  lookup (Release join backend id key s).1.2 other = lookup s other.
Proof.
  intros Hne. unfold Release, lookup. run_store. unfold delete.
  destruct (fails s _); simpl; [done|]. by rewrite lookup_remove_other.
Qed.

(** C4, as stated, fails: a master key in range, found without slave keys
    and not deleted, that the previous round had marked under another
    ModRevision, is not in the returned map. *)
Lemma RunGC_reused_key_not_recorded :
  let prev : gmap string Z := {["b/id/300" := 5]} in
  let run := RunGC join backend prev minID maxID unusedMaster in
  gcInScope minID maxID "b/id/300" = true
  ∧ run.2 = [CListPrefix "b/id" [("b/id/300", val "k" 7 0)] None;
             CLockPath "b/locks/id/300" "b/locks/id/300" None;
             CListPrefixIfLocked "b/value/k" "b/locks/id/300"
               [("b/value/kk/n2", val "301" 8 1)] None;
             CUnlock "b/locks/id/300" None]
  ∧ hasUsers "b/value/k" [("b/value/kk/n2", val "301" 8 1)] = false
  ∧ lookup run.1.2 "b/id/300" = Some (val "k" 7 0)
  ∧ ∃ m stats, run.1.1 = (Some m, stats, None)
               ∧ m !! "b/id/300" ≠ Some 7.
Proof.
  split_and!; [reflexivity..|].
  eexists _, _. split; [reflexivity|]. vm_compute. discriminate.
Qed.

Lemma Get_returns_parsed_slave_value_witness :
  Get join 0 backend "k" usedMaster
  = ((300, None), usedMaster,
     [CListPrefix "b/value/k" [("b/value/k/n2", val "300" 8 1)] None])
  ∧ (300 = 0 ∨
     ∃ pairs slaveKey v,
       let prefix := join [valuePrefix backend; GetKey "k"] in
       ListPrefix prefix usedMaster = ((pairs, None), usedMaster)
       ∧ (slaveKey, v) ∈ pairs
       ∧ prefixMatchesKey prefix slaveKey = true
       ∧ ParseUint (Data v) = Some 300
       ∧ 0 ≤ 300 ≤ maxUint64).
Proof.
  split; [reflexivity|].
  apply (Get_returns_parsed_slave_value join 0 backend "k" usedMaster 300 usedMaster
           [CListPrefix "b/value/k" [("b/value/k/n2", val "300" 8 1)] None]).
  reflexivity.
Defined.

Lemma ListAndWatch_ignores_empty_value_witness :
  let event := mkEvent EventTypeModify "b/id/300" "" in
  let acts := [LogError "Received a key with an empty value" "b/id/300"] in
  (event, acts) ∈ (ListAndWatch 0 backend [event]).1
  ∧ (∀ id key, ¬ (OnUpsert id key ∈ acts) ∧ ¬ (OnDelete id key ∈ acts))
  ∧ (Typ event ≠ EventTypeListDone →
     ∀ a, a ∈ acts →
       ∃ msg, a = LogWarn msg (Key event) ∨ a = LogError msg (Key event)).
Proof.
  split; [vm_compute; left|].
  apply (ListAndWatch_ignores_empty_value 0 backend
           [mkEvent EventTypeModify "b/id/300" ""]).
  - vm_compute. left.
  - reflexivity.
  - discriminate.
Defined.

Lemma RunGC_skips_out_of_range_witness :
  last (Split "b/id/999999" slash) = Some "999999"
  ∧ ParseUint "999999" = Some 999999
  ∧ (999999 < minID ∨ maxID < 999999)
  ∧ (∀ acc s, gcEntry join backend ∅ minID maxID ("b/id/999999", val "j" 6 0) acc s
              = (inl acc, s, []))
  ∧ (∀ s lock err,
       ¬ (CDeleteIfLocked "b/id/999999" lock err
          ∈ (RunGC join backend ∅ minID maxID s).2))
  ∧ (∀ s m stats err,
       (RunGC join backend ∅ minID maxID s).1.1 = (Some m, stats, err) →
       m !! "b/id/999999" = None).
Proof.
  pose proof (RunGC_skips_out_of_range (St := store) join backend ∅ minID maxID
                "b/id/999999" (val "j" 6 0) "999999" 999999
                eq_refl eq_refl (or_intror eq_refl)) as (Hpass & _ & Hdel & Hmap).
  split_and!; [reflexivity|reflexivity|right; reflexivity
              |exact Hpass|exact Hdel|exact Hmap].
Defined.

(** The identity [999999] lies outside [256, 65535]: GC leaves its master
    key alone and takes no lock. *)
Example RunGC_foreign_master_key :
  let run := RunGC join backend ∅ minID maxID foreignMaster in
  run.2 = [CListPrefix "b/id" [("b/id/999999", val "j" 6 0)] None]
  ∧ run.1.1 = (Some ∅, Some {| Alive := 1; Deleted := 0 |}, None)
  ∧ run.1.2 = foreignMaster.
Proof. vm_compute. done. Qed.

(** A lock seen twice unchanged is removed; a lock taken again in between
    is kept and recorded anew. *)
Example RunLocksGC_stale_lock :
  let run := RunLocksGC backend locksSeenBefore twoLocks in
  run.1.1 = (Some {["b/locks/id/2" := val "" 4 9]}, None)
  ∧ entries run.1.2 = [("b/locks/id/2", val "" 4 9)].
Proof. vm_compute. done. Qed.

Lemma RunGC_deletes_only_marked_unused_witness :
  let prev : gmap string Z := {["b/id/300" := 7]} in
  let calls := (RunGC join backend prev minID maxID unusedMaster).2 in
  CDeleteIfLocked "b/id/300" "b/locks/id/300" None ∈ calls
  ∧ ∃ allocated v pairs u pre post,
      let valueKeyPrefix := join [valuePrefix backend; Data v] in
      calls =
        CListPrefix (idPrefix backend) allocated None ::
        pre ++ [CLockPath (lockPathName join backend "b/id/300") "b/locks/id/300" None;
                CListPrefixIfLocked valueKeyPrefix "b/locks/id/300" pairs None;
                CDeleteIfLocked "b/id/300" "b/locks/id/300" None;
                CUnlock "b/locks/id/300" u] ++ post
      ∧ (("b/id/300", v) : string * Value) ∈ allocated
      ∧ gcInScope minID maxID "b/id/300" = true
      ∧ (∀ slaveKey sv, ((slaveKey, sv) : string * Value) ∈ pairs →
           prefixMatchesKey valueKeyPrefix slaveKey = false)
      ∧ prev !! "b/id/300" = Some (ModRevision v).
Proof.
  split; [vm_compute; do 3 right; left|].
  apply (RunGC_deletes_only_marked_unused join backend {["b/id/300" := 7]}
           minID maxID unusedMaster "b/id/300" "b/locks/id/300" None).
  vm_compute. do 3 right. left.
Defined.

Lemma RunLocksGC_two_phase_witness :
  let allocated := [("b/locks/id/1", val "" 3 9); ("b/locks/id/2", val "" 4 9)] in
  let calls := (RunLocksGC backend locksSeenBefore twoLocks).2 in
  ListPrefix (lockPrefix backend) twoLocks = ((allocated, None), twoLocks)
  ∧ NoDup allocated.*1
  ∧ calls = [CListPrefix "b/locks" allocated None; CDelete "b/locks/id/1" None]
  ∧ (∀ lockKey err, CDelete lockKey err ∈ calls →
       (None : option error) = None ∧
       ∃ v pv, (lockKey, v) ∈ allocated ∧ locksSeenBefore !! lockKey = Some pv
               ∧ ModRevision pv = ModRevision v ∧ LeaseID pv = LeaseID v)
  ∧ ∃ m, (RunLocksGC backend locksSeenBefore twoLocks).1.1 = (Some m, None)
      ∧ (∀ lockKey v, (lockKey, v) ∈ allocated →
           ¬ (CDelete lockKey None ∈ calls) →
           m !! lockKey = Some (staleLock v))
      ∧ (∀ lockKey, CDelete lockKey None ∈ calls → m !! lockKey = None)
      ∧ (∀ lockKey, lockKey ∉ allocated.*1 → m !! lockKey = None).
Proof.
  assert (ListPrefix (lockPrefix backend) twoLocks
          = (([("b/locks/id/1", val "" 3 9); ("b/locks/id/2", val "" 4 9)], None),
             twoLocks)) as Hlist by reflexivity.
  pose proof (RunLocksGC_two_phase backend locksSeenBefore twoLocks _ _ _ Hlist)
    as (Hdel & _ & Hmap).
  split_and!; [reflexivity|compute_done|reflexivity|exact Hdel|].
  apply Hmap; [reflexivity|compute_done].
Defined.

Lemma RunGC_marks_first_seen_unused_witness :
  let allocated := [("b/id/300", val "k" 7 0)] in
  let calls := [CLockPath "b/locks/id/300" "b/locks/id/300" None;
                CListPrefixIfLocked "b/value/k" "b/locks/id/300"
                  [("b/value/kk/n2", val "301" 8 1)] None;
                CUnlock "b/locks/id/300" None] in
  let m : gmap string Z := {["b/id/300" := 7]} in
  ListPrefix (idPrefix backend) unusedMaster = ((allocated, None), unusedMaster)
  ∧ NoDup allocated.*1
  ∧ (RunGC join backend ∅ minID maxID unusedMaster).1.1
    = (Some m, Some {| Alive := 1; Deleted := 0 |}, None)
  ∧ ("b/id/300", val "k" 7 0, calls)
    ∈ journal (gcEntry join backend ∅ minID maxID) allocated (∅, 0) unusedMaster
  ∧ foundUnused join backend "b/id/300" (val "k" 7 0) calls
  ∧ ((∅ : gmap string Z) !! "b/id/300" = None →
     m !! "b/id/300" = Some (ModRevision (val "k" 7 0))).
Proof.
  assert (foundUnused join backend "b/id/300" (val "k" 7 0)
            [CLockPath "b/locks/id/300" "b/locks/id/300" None;
             CListPrefixIfLocked "b/value/k" "b/locks/id/300"
               [("b/value/kk/n2", val "301" 8 1)] None;
             CUnlock "b/locks/id/300" None]) as Hunused.
  { eexists _, _, _. split; reflexivity. }
  assert (NoDup [("b/id/300", val "k" 7 0)].*1) as Hnd by compute_done.
  assert (("b/id/300", val "k" 7 0,
           [CLockPath "b/locks/id/300" "b/locks/id/300" None;
            CListPrefixIfLocked "b/value/k" "b/locks/id/300"
              [("b/value/kk/n2", val "301" 8 1)] None;
            CUnlock "b/locks/id/300" None])
          ∈ journal (gcEntry join backend ∅ minID maxID)
              [("b/id/300", val "k" 7 0)] (∅, 0) unusedMaster) as Hin
    by (vm_compute; left).
  pose proof (RunGC_marks_first_seen_unused join backend ∅ minID maxID unusedMaster
                [("b/id/300", val "k" 7 0)] unusedMaster {["b/id/300" := 7]}
                (Some {| Alive := 1; Deleted := 0 |}) "b/id/300" (val "k" 7 0) _
                eq_refl Hnd eq_refl Hin Hunused) as [Hnew _].
  split_and!; [reflexivity|exact Hnd|reflexivity|exact Hin|exact Hunused
              |exact Hnew].
Defined.

End Scenarios.


(** * Further properties *)

(** ** Keys and their parts *)

Section KeyFacts.
Implicit Types (s head sfx prefix : string) (c : ascii).
Local Arguments String.append !_ _ / : simpl nomatch.

Lemma Split_nonempty s c : Split s c ≠ [].
Proof.
  destruct s as [|a s]; simpl; [done|].
  destruct (Ascii.eqb a c); [done|]. by destruct (Split s c).
Qed.

Lemma Split_no_separator s c : contains_byte c s = false → Split s c = [s].
Proof.
  induction s as [|a s IH]; simpl; [done|].
  intros [Ha Hs]%orb_false_iff. rewrite Ha, (IH Hs). done.
Qed.

(** Splitting distributes over a separator. *)
Lemma Split_app head sfx c :
  Split (head +:+ String c sfx) c = Split head c ++ Split sfx c.
Proof.
  induction head as [|a head IH]; simpl.
  - by rewrite Ascii.eqb_refl.
  - rewrite IH. destruct (Ascii.eqb a c); [done|].
    pose proof (Split_nonempty head c). by destruct (Split head c).
Qed.

Lemma Split_last head sfx c :
  contains_byte c sfx = false →
  last (Split (head +:+ String c sfx) c) = Some sfx.
Proof.
  intros Hs. rewrite Split_app, (Split_no_separator _ _ Hs). apply last_snoc.
Qed.

Lemma parse_digits_no_byte acc s n c :
  digit_of c = None → parse_digits acc s = Some n → contains_byte c s = false.
Proof.
  intros Hc. revert acc. induction s as [|a s IH]; simpl; intros acc; [done|].
  destruct (digit_of a) as [d|] eqn:Ha; [|done].
  destruct (_ <? _); [done|]. intros Hp. rewrite (IH _ Hp), orb_false_r.
  destruct (Ascii.eqb_spec a c) as [->|]; [congruence|done].
Qed.

Lemma ParseUint_no_slash s n : ParseUint s = Some n → contains_byte slash s = false.
Proof.
  unfold ParseUint. destruct s; [done|]. by apply parse_digits_no_byte.
Qed.

Lemma ParseUint_first s n :
  ParseUint s = Some n → ∃ a rest, s = String a rest ∧ Ascii.eqb a slash = false.
Proof.
  intros Hp. pose proof (ParseUint_no_slash _ _ Hp) as Hs.
  destruct s as [|a rest]; [done|]. simpl in Hs.
  apply orb_false_iff in Hs as [? _]. by exists a, rest.
Qed.

Lemma append_assoc s1 s2 s3 : (s1 +:+ s2) +:+ s3 = s1 +:+ (s2 +:+ s3).
Proof. induction s1 as [|a s1 IH]; simpl; [done|]. by rewrite IH. Qed.

Lemma append_empty_r s : s +:+ EmptyString = s.
Proof. induction s as [|a s IH]; simpl; [done|]. by rewrite IH. Qed.

Lemma length_append s1 s2 :
  String.length (s1 +:+ s2) = (String.length s1 + String.length s2)%nat.
Proof. induction s1 as [|a s1 IH]; simpl; [done|]. by rewrite IH. Qed.

(** X1: among the keys listed under a prefix, [prefixMatchesKey] selects the
    keys of the very canonical key and rejects those of every longer
    canonical key, whatever the longer key adds. *)
Theorem prefixMatchesKey_exact_key prefix extra node :
  contains_byte slash node = false →
  (prefixMatchesKey prefix (prefix +:+ extra +:+ String slash node) = true
   ↔ extra = EmptyString).
Proof.
  intros Hnode. unfold prefixMatchesKey.
  rewrite <- append_assoc, LastIndex_app by done.
  rewrite len_app, Z.eqb_eq. unfold len. split.
  - intros Hlen. destruct extra; [done|]. simpl in Hlen. lia.
  - intros ->. simpl. lia.
Qed.

(** X2: a slave key matches at most one of the prefixes it starts with. *)
Theorem prefixMatchesKey_unique_prefix prefix1 prefix2 key :
  HasPrefix key prefix1 = true → HasPrefix key prefix2 = true →
  prefixMatchesKey prefix1 key = true → prefixMatchesKey prefix2 key = true →
  prefix1 = prefix2.
Proof.
  intros [r1 ->]%HasPrefix_app [r2 Heq]%HasPrefix_app.
  unfold prefixMatchesKey. rewrite !Z.eqb_eq. intros H1 H2.
  apply app_inv_len in Heq as [? _]; [done|]. unfold len in *. lia.
Qed.

End KeyFacts.

Section KeyToIDFacts.
Context {K : Type}.
Variable NoID : ID.
Implicit Types (k : kvstoreBackend K).
Local Arguments String.append !_ _ / : simpl nomatch.

(** X3: [keyToID] returns an ID without an error exactly for the keys made
    of the master-key prefix followed by a decimal unsigned 64-bit number,
    with or without one [/] between the two; the ID is that number. *)
Theorem keyToID_success k (masterKey : string) id :
  keyToID NoID k masterKey = Returns (id, None) ↔
  ∃ digits, ParseUint digits = Some id
            ∧ (masterKey = idPrefix k +:+ String slash digits
               ∨ masterKey = idPrefix k +:+ digits).
Proof.
  unfold keyToID. split.
  - destruct (HasPrefix masterKey (idPrefix k)) eqn:Hp; simpl; [|done].
    unfold TrimPrefix. rewrite Hp.
    apply HasPrefix_app in Hp as [rest ->]. rewrite drop_bytes_app.
    destruct rest as [|c rest]; [done|].
    destruct (Ascii.eqb_spec c slash) as [->|Hc].
    + destruct (ParseUint rest) as [n|] eqn:Hn; [|done].
      intros [= <-]. exists rest. split; [done|by left].
    + destruct (ParseUint (String c rest)) as [n|] eqn:Hn; [|done].
      intros [= <-]. exists (String c rest). split; [done|by right].
  - intros (digits & Hd & [->| ->]).
    + assert (HasPrefix (idPrefix k +:+ String slash digits) (idPrefix k) = true)
        as Hp by (apply HasPrefix_app; eauto).
      unfold TrimPrefix. rewrite Hp, drop_bytes_app. simpl.
      by rewrite Hd.
    + assert (HasPrefix (idPrefix k +:+ digits) (idPrefix k) = true)
        as Hp by (apply HasPrefix_app; eauto).
      unfold TrimPrefix. rewrite Hp, drop_bytes_app. simpl.
      destruct (ParseUint_first _ _ Hd) as (a & rest & -> & Ha).
      by rewrite Ha, Hd.
Qed.

(** [keyToID] panics on the master-key prefix only. *)
Lemma keyToID_panics_only_at_prefix k (masterKey : string) reason :
  keyToID NoID k masterKey = Panics reason →
  masterKey = idPrefix k.
Proof.
  unfold keyToID.
  destruct (HasPrefix masterKey (idPrefix k)) eqn:Hp; simpl; [|done].
  unfold TrimPrefix. rewrite Hp.
  apply HasPrefix_app in Hp as [rest ->]. rewrite drop_bytes_app.
  destruct rest as [|c rest]; [by rewrite append_empty_r|].
  by destruct (ParseUint _).
Qed.

Lemma keyToID_at_prefix k :
  ∃ reason, keyToID NoID k (idPrefix k) = Panics reason.
Proof.
  unfold keyToID. rewrite HasPrefix_refl, TrimPrefix_self. simpl. eauto.
Qed.

(** The scope read off the key: on a master key written as prefix, [/], decimal number, [RunGC] and
    [keyToID] read the same ID: the key is in the scope of the GC exactly
    when the ID that [keyToID] returns lies within the bounds. *)
Theorem gcInScope_agrees_with_keyToID k (min max : Z) digits id :
  ParseUint digits = Some id →
  let masterKey := idPrefix k +:+ String slash digits in
  keyToID NoID k masterKey = Returns (id, None)
  ∧ (gcInScope min max masterKey = true ↔ min ≤ id ≤ max).
Proof.
  intros Hd masterKey. split.
  - apply keyToID_success. exists digits. split; [done|by left].
  - unfold gcInScope, masterKey.
    rewrite Split_last by (by eapply ParseUint_no_slash). rewrite Hd.
    rewrite negb_true_iff, orb_false_iff, !Z.ltb_ge. lia.
Qed.

End KeyToIDFacts.

(** ** Lookups, allocation and listing *)

Section AllocationFacts.
Context {St LockT K : Type}.
Context `{!BackendOperations St LockT, !AllocatorKey K}.
Variable path_Join : list string → string.
Variable ID_String : ID → string.
Variable NoID : ID.

Implicit Types (k : kvstoreBackend K) (key : K) (id : ID) (s : St).

Lemma firstMatchingID_complete prefix (pairs : KeyValuePairs) slaveKey v n :
  (slaveKey, v) ∈ pairs → prefixMatchesKey prefix slaveKey = true →
  ParseUint (Data v) = Some n →
  is_Some (firstMatchingID prefix pairs).
Proof.
  induction pairs as [|[k0 v0] pairs IH]; [by intros ?%elem_of_nil|].
  intros [[= <- <-]|Hin]%elem_of_cons Hm Hp; simpl.
  - rewrite Hm, Hp. eauto.
  - destruct (prefixMatchesKey prefix k0); [|by apply IH].
    destruct (ParseUint (Data v0)); [eauto|by apply IH].
Qed.

(** X5: when all the listed slave keys of a canonical key that carry a
    number carry the same one, [Get] returns that number, in whatever order
    the listing is visited; it falls back on [NoID] only when no listed
    slave key of the canonical key carries a number. *)
Theorem Get_returns_the_common_ID k key s pairs s' slaveKey v n :
  let prefix := path_Join [valuePrefix k; GetKey key] in
  ListPrefix prefix s = ((pairs, None), s') →
  (slaveKey, v) ∈ pairs → prefixMatchesKey prefix slaveKey = true →
  ParseUint (Data v) = Some n →
  (∀ slaveKey' v' n', (slaveKey', v') ∈ pairs →
     prefixMatchesKey prefix slaveKey' = true →
     ParseUint (Data v') = Some n' → n' = n) →
  Get path_Join NoID k key s = ((n, None), s', [CListPrefix prefix pairs None]).
Proof.
  intros prefix Hlist Hin Hm Hp Hsame. unfold Get. run_store.
  fold prefix. rewrite Hlist. simpl.
  destruct (firstMatchingID_complete prefix pairs _ _ _ Hin Hm Hp) as [n' Hn'].
  rewrite Hn'. simpl.
  destruct (firstMatchingID_sound _ _ _ Hn') as (k1 & v1 & ? & ? & ?).
  by rewrite (Hsame k1 v1 n').
Qed.

(** X6: [UpdateKeyIfLocked] without [reliablyMissing] is [AllocateIDIfLocked]
    followed by [AcquireReference], except that only an error of the store
    on the master key stops it: when the master key exists already,
    [AllocateIDIfLocked] fails and [UpdateKeyIfLocked] goes on to the slave
    key.  The calls, the state left and the success are those of the two
    methods in sequence. *)
Theorem UpdateKeyIfLocked_allocates_then_acquires k id key lock s :
  let alloc := AllocateIDIfLocked path_Join ID_String k id key lock s in
  let acquire := AcquireReference path_Join ID_String k id key lock alloc.1.2 in
  let update := UpdateKeyIfLocked path_Join ID_String k id key false lock s in
  ((∃ keyPath e, alloc.1.1.2 = Some (ErrCreateMasterKey keyPath (Some e)))
   ∧ update.2 = alloc.2 ∧ update.1.2 = alloc.1.2 ∧ is_Some update.1.1)
  ∨ ((alloc.1.1.2 = None ∨ ∃ keyPath, alloc.1.1.2 = Some (ErrCreateMasterKey keyPath None))
     ∧ update.2 = alloc.2 ++ acquire.2 ∧ update.1.2 = acquire.1.2
     ∧ (update.1.1 = None ↔ acquire.1.1 = None)).
Proof.
  unfold UpdateKeyIfLocked, AllocateIDIfLocked, AcquireReference, createValueNodeKey.
  run_store.
  destruct (CreateOnlyIfLocked _ _ false lock s) as [[ok [e|]] s1]; simpl.
  { left. split_and!; eauto. }
  right.
  destruct ok; simpl;
    destruct (UpdateIfDifferentIfLocked _ _ true lock s1) as [[ok2 [e|]] s2];
    simpl; split_and!; eauto; done.
Qed.

(** X20: [Get] and [GetIfLocked] select the ID in the same way: when the
    plain listing and the listing under the lock return the same pairs and
    the same error, the two methods return the same ID and the same error. *)
Theorem Get_and_GetIfLocked_agree k key lock s pairs err s1 s2 :
  let prefix := path_Join [valuePrefix k; GetKey key] in
  ListPrefix prefix s = ((pairs, err), s1) →
  ListPrefixIfLocked prefix lock s = ((pairs, err), s2) →
  (Get path_Join NoID k key s).1.1 = (GetIfLocked path_Join NoID k key lock s).1.1
  ∧ (Get path_Join NoID k key s).1.1.2 = err
  ∧ mutations (Get path_Join NoID k key s).2 = []
  ∧ mutations (GetIfLocked path_Join NoID k key lock s).2 = [].
Proof.
  intros prefix Hplain Hlocked. unfold Get, GetIfLocked. run_store.
  fold prefix. rewrite Hplain, Hlocked. simpl.
  destruct err as [e|]; simpl; [done|].
  by destruct (firstMatchingID prefix pairs).
Qed.

Lemma collectIDs_returns k (identities : KeyValuePairs) (acc : list ID) :
  idPrefix k ∉ identities.*1 →
  ∃ ids, collectIDs NoID k identities acc = Returns (acc ++ ids)
         ∧ (length ids ≤ length identities)%nat
         ∧ ∀ id, id ∈ ids ↔
             ∃ masterKey, masterKey ∈ identities.*1
                          ∧ keyToID NoID k masterKey = Returns (id, None).
Proof.
  revert acc. induction identities as [|[key0 v0] l IH]; intros acc; simpl.
  { intros _. exists []. rewrite app_nil_r. split_and!; [done|done|].
    intros id. split; [by intros ?%elem_of_nil|].
    by intros (? & ?%elem_of_nil & _). }
  intros [Hne Hrest]%not_elem_of_cons.
  destruct (keyToID NoID k key0) as [[id0 [e|]]|reason] eqn:Hk.
  - destruct (IH acc Hrest) as (ids & -> & Hlen & Hids). exists ids.
    split_and!; [done|lia|]. intros id. rewrite Hids. split.
    + intros (mk & ? & ?). exists mk. split; [by right|done].
    + intros (mk & [->|?]%elem_of_cons & Hmk); [congruence|eauto].
  - destruct (IH (acc ++ [id0]) Hrest) as (ids & -> & Hlen & Hids).
    exists (id0 :: ids). rewrite <- app_assoc. split_and!; [done|simpl; lia|].
    intros id. rewrite elem_of_cons, Hids. split.
    + intros [->|(mk & ? & ?)]; [exists key0; split; [left|done]|].
      exists mk. split; [by right|done].
    + intros (mk & [->|?]%elem_of_cons & Hmk); [left; congruence|right; eauto].
  - apply keyToID_panics_only_at_prefix in Hk. by destruct Hne.
Qed.

Lemma collectIDs_panics k (identities : KeyValuePairs) (acc : list ID) :
  idPrefix k ∈ identities.*1 →
  ∃ reason, collectIDs NoID k identities acc = Panics reason.
Proof.
  revert acc. induction identities as [|[key0 v0] l IH]; intros acc; simpl.
  { by intros ?%elem_of_nil. }
  intros Hin. destruct (decide (key0 = idPrefix k)) as [->|Hne].
  { destruct (keyToID_at_prefix NoID k) as [reason ->]. eauto. }
  apply elem_of_cons in Hin as [Heq|Hin]; [by destruct Hne|].
  destruct (keyToID NoID k key0) as [[id0 [e|]]|reason]; eauto.
Qed.

(** X7: when the listing succeeds, [ListIDs] panics exactly when one of the
    listed keys is the master-key prefix itself; otherwise it returns,
    without an error, the IDs that [keyToID] reads from the listed keys, the
    ID [0] included, and passes over the keys that do not parse. *)
Theorem ListIDs_listed_ids k s identities s0 :
  ListPrefix (idPrefix k) s = ((identities, None), s0) →
  ((∃ reason, (ListIDs NoID k s).1.1 = Panics reason) ↔ idPrefix k ∈ identities.*1)
  ∧ (∀ ids err, (ListIDs NoID k s).1.1 = Returns (ids, err) →
       err = None
       ∧ (length ids ≤ length identities)%nat
       ∧ ∀ id, id ∈ ids ↔
           ∃ masterKey, masterKey ∈ identities.*1
                        ∧ keyToID NoID k masterKey = Returns (id, None)).
Proof.
  intros Hlist. unfold ListIDs. run_store. rewrite Hlist. simpl.
  destruct (decide (idPrefix k ∈ identities.*1)) as [Hin|Hout].
  - destruct (collectIDs_panics k identities [] Hin) as [reason ->]. simpl.
    split; [split; eauto|done].
  - destruct (collectIDs_returns k identities [] Hout) as (ids & -> & Hlen & Hids).
    simpl. split.
    + split; [by intros [? ?]|done].
    + by intros ? ? [= <- <-].
Qed.

End AllocationFacts.

(** ** The watcher *)

Section MoreWatchFacts.
Context {K : Type} `{!AllocatorKey K}.
Variable NoID : ID.

Implicit Types (k : kvstoreBackend K) (event : KeyValueEvent).

Lemma watchEvent_panics k event reason :
  watchEvent NoID k event = Panics reason →
  Typ event ≠ EventTypeListDone ∧ Key event = idPrefix k.
Proof.
  unfold watchEvent.
  destruct (Typ event); try done;
    (destruct (keyToID NoID k (Key event)) as [[id [e|]]|r] eqn:Hk;
     [done| |intros _; split; [done|by eapply keyToID_panics_only_at_prefix]]);
    case_bool_decide; try done; by destruct (0 <? len (EvValue event)).
Qed.

Lemma watchEvent_at_prefix k event :
  Typ event ≠ EventTypeListDone → Key event = idPrefix k →
  ∃ reason, watchEvent NoID k event = Panics reason.
Proof.
  intros Ht Hk. unfold watchEvent. rewrite Hk.
  destruct (keyToID_at_prefix NoID k) as [reason ->].
  destruct (Typ event); eauto. done.
Qed.

(** X8: [ListAndWatch] handles the events in the order delivered, up to the
    first event other than ListDone whose key is the master-key prefix
    itself: that event ends the loop by a panic, and no event after it is
    handled.  Without such an event every event is handled. *)
Theorem ListAndWatch_handles_until_panic k events :
  let journal := (ListAndWatch NoID k events).1 in
  let panic := (ListAndWatch NoID k events).2 in
  Forall (λ event, Typ event = EventTypeListDone ∨ Key event ≠ idPrefix k) journal.*1
  ∧ (panic = None → journal.*1 = events)
  ∧ (∀ reason, panic = Some reason →
       ∃ event rest, events = journal.*1 ++ event :: rest
                     ∧ Typ event ≠ EventTypeListDone ∧ Key event = idPrefix k).
Proof.
  induction events as [|e events IH]; simpl.
  { split_and!; [constructor|done|done]. }
  destruct (watchEvent NoID k e) as [acts|reason] eqn:He; simpl.
  - destruct (ListAndWatch NoID k events) as [journal panic]. simpl in *.
    destruct IH as (Hall & Hnone & Hsome). split_and!.
    + constructor; [|done].
      destruct (Typ e) eqn:Ht; [right|right|right|by left];
        intros Hk; (destruct (watchEvent_at_prefix k e) as [r Hr];
         [by rewrite Ht|done|congruence]).
    + intros Hp. f_equal. by apply Hnone.
    + intros r Hp. destruct (Hsome r Hp) as (ev & rest & Heq & ? & ?).
      exists ev, rest. split; [|done]. simpl. by f_equal.
  - split_and!; [constructor|done|].
    intros r _. apply watchEvent_panics in He as [? ?]. by exists e, events.
Qed.

(** X9: the handler is called with the ID that [keyToID] reads from the key
    of the event, never with [NoID]: [OnUpsert] exactly for the Create and
    Modify events with a non-empty value, with the key built from that
    value, and [OnDelete] exactly for the Delete events, with the key built
    from the value, or no key when the value is empty. *)
Theorem ListAndWatch_calls_handler k events event acts :
  (event, acts) ∈ (ListAndWatch NoID k events).1 →
  (∀ id key,
     OnUpsert id key ∈ acts ↔
     (Typ event = EventTypeCreate ∨ Typ event = EventTypeModify)
     ∧ keyToID NoID k (Key event) = Returns (id, None) ∧ id ≠ NoID
     ∧ EvValue event ≠ EmptyString
     ∧ key = Some (PutKey (keyType k) (EvValue event)))
  ∧ (∀ id key,
       OnDelete id key ∈ acts ↔
       Typ event = EventTypeDelete
       ∧ keyToID NoID k (Key event) = Returns (id, None) ∧ id ≠ NoID
       ∧ key = if 0 <? len (EvValue event)
               then Some (PutKey (keyType k) (EvValue event)) else None).
Proof.
  intros [_ Hrun]%ListAndWatch_journal.
  assert (EvValue event ≠ EmptyString ↔ (0 <? len (EvValue event)) = true) as Hlen.
  { destruct (EvValue event); [done|]. unfold len. simpl.
    split; [intros _; by apply Z.ltb_lt; lia|done]. }
  unfold watchEvent in Hrun.
  destruct (Typ event) eqn:Ht;
    try (destruct (keyToID NoID k (Key event)) as [[id' [e|]]|] eqn:Hk; try done;
         try case_bool_decide;
         try destruct (0 <? len (EvValue event)) eqn:Hpos);
    injection Hrun as <-;
    (split; intros id key; rewrite ?elem_of_cons, ?elem_of_nil; (split; intros Hx));
    try (rewrite Hpos in Hlen);
    repeat (destruct_and? || destruct_or?); simplify_eq; try done;
    rewrite ?Hpos; try (by destruct Hlen; auto 10);
    by match goal with H : _ ≠ EmptyString |- _ => apply Hlen in H end.
Qed.

End MoreWatchFacts.

(** ** The garbage collector of master keys, as a whole *)

Section MoreGCFacts.
Context {St LockT K : Type}.
Context `{!BackendOperations St LockT, !Limiter St}.
Variable path_Join : list string → string.

Implicit Types (k : kvstoreBackend K) (s : St) (prev m : gmap string Z).
Implicit Types (acc : gmap string Z * Z) (l : KeyValuePairs).

Local Abbreviation body k prev min max :=
  (gcEntry (LockT := LockT) path_Join k prev min max).
Local Abbreviation pass k prev min max :=
  (gcPass (LockT := LockT) path_Join k prev min max).

(** Induction over the passes of the loop: a property of the listing
    visited, the loop state at the start, the result and the calls holds of
    every run when it holds of the empty run and is kept by a pass put in
    front, whether the pass lets the loop go on or leaves it. *)
Lemma gc_loop_ind k prev min max
    (P : KeyValuePairs → gmap string Z * Z → gmap string Z * Z + error →
         list (call LockT) → Prop) :
  (∀ acc, P [] acc (inl acc) []) →
  (∀ masterKey v l acc acc' c1 r rest,
     pass k prev min max masterKey v acc (inl acc') c1 →
     P l acc' r rest → P ((masterKey, v) :: l) acc r (c1 ++ rest)) →
  (∀ masterKey v l acc e c1,
     pass k prev min max masterKey v acc (inr e) c1 →
     P ((masterKey, v) :: l) acc (inr e) (c1 ++ [])) →
  ∀ l acc s,
    P l acc (forRange (body k prev min max) l acc s).1.1
            (forRange (body k prev min max) l acc s).2.
Proof.
  intros Hnil Hgo Hleave l. induction l as [|[key0 v0] l IH]; intros acc s.
  { apply Hnil. }
  rewrite forRange_cons.
  pose proof (gcEntry_pass path_Join k prev min max key0 v0 acc s) as Hp.
  destruct (body k prev min max (key0, v0) acc s) as [[[acc'|e] s1] c1];
    cbn [fst snd] in Hp.
  - specialize (IH acc' s1).
    destruct (forRange (body k prev min max) l acc' s1) as [[r' s2] c2].
    cbn [fst snd] in *. by eapply Hgo.
  - cbn [fst snd]. by apply Hleave.
Qed.

(** Invert a pass into its seven shapes. *)
Ltac passes H := inversion H; subst; clear H.

(** Read a deleting pass that lets the loop go on. *)
Ltac went_on :=
  match goal with
  | H : match ?w with Some _ => _ | None => _ end = inl _ |- _ =>
      destruct w; [discriminate H|]; injection H as <-
  | H : match ?w with Some _ => _ | None => _ end = inr _ |- _ =>
      destruct w; [injection H as <-|discriminate H]
  end.

Lemma RunGC_run k prev min max s allocated s0 :
  ListPrefix (idPrefix k) s = ((allocated, None), s0) →
  (RunGC path_Join k prev min max s).1.1 =
    match (forRange (body k prev min max) allocated (∅, 0) s0).1.1 with
    | inr e => (None, None, Some e)
    | inl (staleKeys, deletedEntries) =>
        (Some staleKeys,
         Some {| Alive := Z.of_nat (length allocated) - deletedEntries;
                 Deleted := deletedEntries |}, None)
    end.
Proof.
  intros Hlist. unfold RunGC. run_store. rewrite Hlist. simpl.
  by destruct (forRange _ allocated (∅, 0) s0) as [[[[m d]|e] s1] c1].
Qed.

Lemma gc_loop_deleted k prev min max l acc s m d :
  (forRange (body k prev min max) l acc s).1.1 = inl (m, d) →
  d = acc.2 + Z.of_nat (length (List.filter deletionDone
                                  (forRange (body k prev min max) l acc s).2))
  ∧ (length (List.filter deletionDone (forRange (body k prev min max) l acc s).2)
     ≤ length l)%nat.
Proof.
  revert m d.
  apply (gc_loop_ind k prev min max
           (λ l acc r calls, ∀ m d, r = inl (m, d) →
              d = acc.2 + Z.of_nat (length (List.filter deletionDone calls))
              ∧ (length (List.filter deletionDone calls) ≤ length l)%nat)).
  - intros acc0 m d [= ->]. simpl. lia.
  - intros masterKey v l0 acc0 acc' c1 r rest Hp IH m d Hr.
    destruct (IH m d Hr) as [-> Hlen]. rewrite List.filter_app, length_app.
    passes Hp; simpl; try lia.
    went_on. destruct err; simpl; lia.
  - done.
Qed.

(** X10: the statistics that [RunGC] returns count the listing: [Deleted]
    is the number of deletions that succeeded, [Alive] the number of listed
    master keys that remain, none of them negative. *)
Theorem RunGC_statistics k prev min max s allocated s0
    (staleKeys : option (gmap string Z)) stats err :
  ListPrefix (idPrefix k) s = ((allocated, None), s0) →
  (RunGC path_Join k prev min max s).1.1 = (staleKeys, Some stats, err) →
  Deleted stats = Z.of_nat (length (List.filter deletionDone
                                      (RunGC path_Join k prev min max s).2))
  ∧ Alive stats + Deleted stats = Z.of_nat (length allocated)
  ∧ 0 ≤ Deleted stats ∧ 0 ≤ Alive stats.
Proof.
  intros Hlist. rewrite (RunGC_run _ _ _ _ _ _ _ Hlist).
  rewrite (RunGC_calls path_Join _ _ _ _ _ _ _ Hlist).
  destruct (forRange _ allocated (∅, 0) s0).1.1 as [[m' d]|e] eqn:Hloop; [|done].
  intros [= <- <- <-]. simpl.
  destruct (gc_loop_deleted _ _ _ _ _ _ _ _ _ Hloop) as [-> Hlen]. simpl. lia.
Qed.

(** X11: [RunGC] holds at most one lock at a time, lists slave keys and
    deletes a master key only under the lock it holds, waits for the rate
    limiter only after it has given the lock back, and holds no lock when it
    returns, whether it returns its map or an error. *)
Theorem RunGC_lock_discipline k prev min max s :
  lockDiscipline None (RunGC path_Join k prev min max s).2.
Proof.
  destruct (ListPrefix (idPrefix k) s) as [[allocated [e|]] s0] eqn:Hlist.
  { unfold RunGC. run_store. by rewrite Hlist. }
  rewrite (RunGC_calls path_Join _ _ _ _ _ _ _ Hlist). simpl.
  apply (gc_loop_ind k prev min max (λ _ _ _ calls, lockDiscipline None calls)).
  - done.
  - intros masterKey v l acc acc' c1 r rest Hp IH. by passes Hp.
  - intros masterKey v l acc e c1 Hp. by passes Hp.
Qed.

(** X12: [RunGC] waits for the rate limiter once for every deletion it
    tries, whether the deletion succeeds or not, and at no other time. *)
Theorem RunGC_waits_once_per_deletion k prev min max s :
  length (List.filter limiterWait (RunGC path_Join k prev min max s).2)
  = length (List.filter deletionTried (RunGC path_Join k prev min max s).2).
Proof.
  destruct (ListPrefix (idPrefix k) s) as [[allocated [e|]] s0] eqn:Hlist.
  { unfold RunGC. run_store. by rewrite Hlist. }
  rewrite (RunGC_calls path_Join _ _ _ _ _ _ _ Hlist). simpl.
  apply (gc_loop_ind k prev min max
           (λ _ _ _ calls, length (List.filter limiterWait calls)
                           = length (List.filter deletionTried calls))).
  - done.
  - intros masterKey v l acc acc' c1 r rest Hp IH.
    rewrite !List.filter_app, !length_app, IH. by passes Hp.
  - intros masterKey v l acc e c1 Hp. rewrite !app_nil_r. by passes Hp.
Qed.

(** X13: the only errors that [RunGC] returns are the error of the listing
    of the master keys, wrapped, and the error of the rate limiter, as it
    is; then it returns neither map nor statistics.  A lock that cannot be
    taken, slave keys that cannot be listed and a deletion that fails do not
    end the run. *)
Theorem RunGC_errors k prev min max s allocated listErr s0 :
  ListPrefix (idPrefix k) s = ((allocated, listErr), s0) →
  let calls := (RunGC path_Join k prev min max s).2 in
  let result := (RunGC path_Join k prev min max s).1.1 in
  (result.2 = None ↔ listErr = None ∧ ∀ e, ¬ (CWait (Some e) ∈ calls))
  ∧ (∀ e, result.2 = Some e →
       result.1 = (None, None)
       ∧ ((listErr ≠ None ∧ e = ErrListFailed (default e listErr)
           ∧ calls = [CListPrefix (idPrefix k) allocated listErr])
          ∨ (listErr = None ∧ ∃ before, calls = before ++ [CWait (Some e)])))
  ∧ (result.2 = None → is_Some result.1.1 ∧ is_Some result.1.2).
Proof.
  intros Hlist. destruct listErr as [e0|].
  { unfold RunGC. run_store. rewrite Hlist. simpl. split_and!.
    - split; [done|by intros [? _]].
    - intros e [= <-]. split; [done|]. left. by split_and!.
    - done. }
  simpl. rewrite (RunGC_run _ _ _ _ _ _ _ Hlist), (RunGC_calls path_Join _ _ _ _ _ _ _ Hlist).
  pose proof (gc_loop_ind k prev min max
    (λ _ _ r calls,
       match r with
       | inl _ => ∀ e, ¬ (CWait (Some e) ∈ calls)
       | inr e => ∃ before, calls = before ++ [CWait (Some e)]
       end)) as Hind.
  specialize (Hind (λ _ e, not_elem_of_nil _)).
  assert (∀ l acc s1,
    match (forRange (body k prev min max) l acc s1).1.1 with
    | inl _ => ∀ e, ¬ (CWait (Some e) ∈ (forRange (body k prev min max) l acc s1).2)
    | inr e => ∃ before,
        (forRange (body k prev min max) l acc s1).2 = before ++ [CWait (Some e)]
    end) as Hloop.
  { apply Hind.
    - intros masterKey v l acc acc' c1 r rest Hp IH. destruct r as [acc''|e].
      + intros e [Hin|Hin]%elem_of_app; [|by eapply IH].
        passes Hp; try went_on;
          repeat (apply elem_of_cons in Hin as [Hin|Hin]; [discriminate Hin|]);
          by apply elem_of_nil in Hin.
      + destruct IH as [before ->]. exists (c1 ++ before). by rewrite app_assoc.
    - intros masterKey v l acc e c1 Hp. passes Hp. went_on.
      eexists [_; _; _; _]. by rewrite app_nil_r. }
  specialize (Hloop allocated (∅, 0) s0).
  destruct (forRange _ allocated (∅, 0) s0) as [[[[m d]|e] s1] c1];
    cbn [fst snd] in *.
  - split_and!.
    + split; [intros _; split; [done|]|done].
      intros e [[=]|Hin]%elem_of_cons. by eapply Hloop.
    + done.
    + eauto.
  - destruct Hloop as [before ->]. split_and!.
    + split; [done|]. intros [_ Hno]. destruct (Hno e).
      right. apply elem_of_app. right. left.
    + intros e' [= <-]. split; [done|]. right. split; [done|].
      by exists (CListPrefix (idPrefix k) allocated None :: before).
    + done.
Qed.

(** X14: the only writes of [RunGC] are deletions, under a lock, of listed
    master keys in scope: it creates and updates nothing and deletes no key
    that the listing of the master keys did not return. *)
Theorem RunGC_only_deletes_listed_keys k prev min max s allocated listErr s0 mu :
  ListPrefix (idPrefix k) s = ((allocated, listErr), s0) →
  mu ∈ mutations (RunGC path_Join k prev min max s).2 →
  ∃ masterKey v,
    mu = Deletion masterKey ∧ (masterKey, v) ∈ allocated ∧ listErr = None
    ∧ gcInScope min max masterKey = true.
Proof.
  intros Hlist. destruct listErr as [e0|].
  { unfold RunGC. run_store. rewrite Hlist. simpl. by intros ?%elem_of_nil. }
  rewrite (RunGC_calls path_Join _ _ _ _ _ _ _ Hlist).
  unfold mutations. rewrite list_elem_of_omap.
  intros (c & [->|Hin]%elem_of_cons & Hmu); [done|].
  assert (deletionTried c = true) as Htried.
  { revert c Hin Hmu.
    apply (gc_loop_ind k prev min max
             (λ _ _ _ calls, ∀ c, c ∈ calls → mutation_of c = Some mu →
                                  deletionTried c = true)).
    - by intros _ c ?%elem_of_nil.
    - intros masterKey v l acc acc' c1 r rest Hp IH c [Hc|Hc]%elem_of_app;
        [|by apply IH].
      passes Hp;
        repeat (apply elem_of_cons in Hc as [->|Hc]; [done|]);
        by apply elem_of_nil in Hc.
    - intros masterKey v l acc e c1 Hp c. rewrite app_nil_r. intros Hc.
      passes Hp;
        repeat (apply elem_of_cons in Hc as [->|Hc]; [done|]);
        by apply elem_of_nil in Hc. }
  destruct c; try done. simpl in Hmu. injection Hmu as <-.
  destruct (gc_loop_deletions path_Join _ _ _ _ _ _ _ _ _ _ Hin)
    as (v & _ & _ & _ & _ & _ & ? & ? & _). by exists key, v.
Qed.

(** X15: every key in the map that [RunGC] returns is a listed master key in
    scope that the previous round had not marked, with the ModRevision
    listed; so no key is in both the map given and the map returned. *)
Theorem RunGC_records_unmarked_keys_only k prev min max s allocated s0 m stats err
    masterKey rev :
  ListPrefix (idPrefix k) s = ((allocated, None), s0) →
  (RunGC path_Join k prev min max s).1.1 = (Some m, stats, err) →
  m !! masterKey = Some rev →
  prev !! masterKey = None
  ∧ gcInScope min max masterKey = true
  ∧ ∃ v, (masterKey, v) ∈ allocated ∧ rev = ModRevision v.
Proof.
  intros Hlist. rewrite (RunGC_run _ _ _ _ _ _ _ Hlist).
  destruct (forRange _ allocated (∅, 0) s0).1.1 as [[m' d]|e] eqn:Hloop; [|done].
  intros [= <- _ _] Hm.
  destruct (gc_loop_recorded path_Join _ _ _ _ _ _ _ _ _ _ _ Hloop Hm)
    as [Hempty|(v & ? & ? & ? & ?)]; [|by eauto 10].
  simpl in Hempty. by rewrite lookup_empty in Hempty.
Qed.

Lemma elem_of_concat {A} (x : A) (xs : list A) (xss : list (list A)) :
  x ∈ xs → xs ∈ xss → x ∈ concat xss.
Proof.
  intros Hx Hxs. induction xss as [|ys xss IH]; [by apply elem_of_nil in Hxs|].
  simpl. apply elem_of_app. apply elem_of_cons in Hxs as [<-|Hxs]; [by left|].
  right. by apply IH.
Qed.

Lemma gc_journal_pass k prev min max l acc s masterKey v calls :
  (masterKey, v, calls) ∈ journal (body k prev min max) l acc s →
  ∃ acc0 r, pass k prev min max masterKey v acc0 r calls.
Proof.
  revert acc s. induction l as [|[key0 v0] l IH]; intros acc s; cbn [journal].
  { by intros ?%elem_of_nil. }
  pose proof (gcEntry_pass path_Join k prev min max key0 v0 acc s) as Hp.
  destruct (body k prev min max (key0, v0) acc s) as [[[acc'|e] s1] c1];
    cbn [fst snd] in *.
  - intros [[= -> -> ->]|Hin]%elem_of_cons; [eauto|by eapply IH].
  - intros [[= -> -> ->]|Hin%elem_of_nil]%elem_of_cons; [eauto|done].
Qed.

Lemma gcPass_deletes k prev min max masterKey v acc r calls :
  pass k prev min max masterKey v acc r calls →
  foundUnused path_Join k masterKey v calls →
  prev !! masterKey = Some (ModRevision v) →
  ∃ lock pairs err u w,
    calls = [CLockPath (lockPathName path_Join k masterKey) lock None;
             CListPrefixIfLocked (path_Join [valuePrefix k; Data v]) lock pairs None;
             CDeleteIfLocked masterKey lock err;
             CUnlock lock u;
             CWait w].
Proof.
  intros Hp (lock & pairs & rest & -> & Hu) Hprev.
  inversion Hp; subst; try congruence. by eexists _, _, _, _, _.
Qed.

(** X16: a master key that a pass finds unused (lock taken, slave keys
    listed, none matching) and that the previous round marked with the
    ModRevision now listed is handed to the store for deletion under that
    lock, in that pass; the lock is then given back and the rate limiter
    waited for. *)
Theorem RunGC_deletes_marked_unused k prev min max l acc s masterKey v calls :
  (masterKey, v, calls) ∈ journal (body k prev min max) l acc s →
  foundUnused path_Join k masterKey v calls →
  prev !! masterKey = Some (ModRevision v) →
  ∃ lock pairs err u w,
    calls = [CLockPath (lockPathName path_Join k masterKey) lock None;
             CListPrefixIfLocked (path_Join [valuePrefix k; Data v]) lock pairs None;
             CDeleteIfLocked masterKey lock err;
             CUnlock lock u;
             CWait w].
Proof.
  intros Hin Hunused Hprev.
  destruct (gc_journal_pass _ _ _ _ _ _ _ _ _ _ Hin) as (acc0 & r & Hp).
  by eapply gcPass_deletes.
Qed.

(** X17: two rounds delete an unused master key.  If a round of [RunGC]
    finds a master key unused that the round before it had not marked, and
    returns its map, and the next round, run with that map, lists the key
    under the same ModRevision and finds it unused again, then the next
    round hands the key to the store for deletion. *)
Theorem RunGC_two_rounds_delete k prev0 min max masterKey
    s1 allocated1 s1' m1 stats1 v1 calls1
    s2 allocated2 s2' v2 calls2 :
  ListPrefix (idPrefix k) s1 = ((allocated1, None), s1') →
  NoDup allocated1.*1 →
  (RunGC path_Join k prev0 min max s1).1.1 = (Some m1, stats1, None) →
  (masterKey, v1, calls1) ∈ journal (body k prev0 min max) allocated1 (∅, 0) s1' →
  foundUnused path_Join k masterKey v1 calls1 →
  prev0 !! masterKey = None →
  ListPrefix (idPrefix k) s2 = ((allocated2, None), s2') →
  (masterKey, v2, calls2) ∈ journal (body k m1 min max) allocated2 (∅, 0) s2' →
  foundUnused path_Join k masterKey v2 calls2 →
  ModRevision v2 = ModRevision v1 →
  ∃ lock err, CDeleteIfLocked masterKey lock err
              ∈ (RunGC path_Join k m1 min max s2).2.
Proof.
  intros Hlist1 Hnd Hres1 Hin1 Hunused1 Hprev0 Hlist2 Hin2 Hunused2 Hrev.
  destruct (RunGC_result path_Join _ _ _ _ _ _ _ _ _ Hlist1 Hres1) as [d Hloop].
  pose proof (gc_loop_marked path_Join _ _ _ _ _ _ _ _ _ _ _ _
                Hnd Hloop Hin1 Hunused1 Hprev0) as Hmarked.
  rewrite <- Hrev in Hmarked.
  destruct (gc_journal_pass _ _ _ _ _ _ _ _ _ _ Hin2) as (acc0 & r & Hp).
  destruct (gcPass_deletes _ _ _ _ _ _ _ _ _ Hp Hunused2 Hmarked)
    as (lock & pairs & err & u & w & ->).
  exists lock, err. rewrite (RunGC_calls path_Join _ _ _ _ _ _ _ Hlist2).
  right. rewrite journal_flat.
  apply (elem_of_concat _
           [CLockPath (lockPathName path_Join k masterKey) lock None;
            CListPrefixIfLocked (path_Join [valuePrefix k; Data v2]) lock pairs None;
            CDeleteIfLocked masterKey lock err; CUnlock lock u; CWait w]);
    [do 2 right; left|].
  apply list_elem_of_fmap. by eexists (_, _, _).
Qed.

End MoreGCFacts.

(** ** The garbage collector of locks, as a whole *)

Section MoreLocksGCFacts.
Context {St LockT K : Type}.
Context `{!BackendOperations St LockT}.

Implicit Types (k : kvstoreBackend K) (s : St) (prev m : gmap string Value).

Lemma locksGC_loop_calls prev (l : KeyValuePairs) (acc : gmap string Value) s c :
  c ∈ (forRange (R := Empty_set) (locksGCEntry (LockT := LockT) prev) l acc s).2 →
  ∃ lockKey err v, c = CDelete lockKey err ∧ (lockKey, v) ∈ l.
Proof.
  revert acc s. induction l as [|[key0 v0] l IH]; intros acc s.
  { by intros ?%elem_of_nil. }
  cbn [forRange]. unfold mbind, M_bind, bind. rewrite locksGCEntry_pass.
  destruct (lockUnchanged prev key0 v0).
  - destruct (Delete key0 s) as [err s1].
    specialize (IH (match err with None => acc | Some _ => <[key0:=staleLock v0]> acc end) s1).
    destruct (forRange _ l _ s1) as [[r s2] c2]. simpl in *.
    intros [->|Hin]%elem_of_cons.
    + exists key0, err, v0. split; [done|left].
    + destruct (IH Hin) as (lk & e & v & ? & ?). exists lk, e, v. split; [done|by right].
  - specialize (IH (<[key0:=staleLock v0]> acc) s).
    destruct (forRange _ l _ s) as [[r s2] c2]. simpl in *.
    intros Hin. destruct (IH Hin) as (lk & e & v & ? & ?).
    exists lk, e, v. split; [done|by right].
Qed.

Lemma RunLocksGC_run k prev s allocated s0 :
  ListPrefix (lockPrefix k) s = ((allocated, None), s0) →
  ∃ m s' calls,
    forRange (R := Empty_set) (locksGCEntry (LockT := LockT) prev) allocated ∅ s0
      = (inl m, s', calls)
    ∧ RunLocksGC k prev s
      = ((Some m, None), s', CListPrefix (lockPrefix k) allocated None :: calls).
Proof.
  intros Hlist.
  destruct (locksGC_loop prev allocated ∅ s0) as (m & s' & calls & Hrun & _).
  exists m, s', calls. split; [done|].
  unfold RunLocksGC. run_store. rewrite Hlist. simpl. rewrite Hrun. simpl.
  by rewrite app_nil_r.
Qed.

(** X18: [RunLocksGC] fails only when the listing of the locks fails, with
    that error wrapped, and then deletes nothing; a deletion that fails does
    not end the run.  Besides the listing, its only calls are deletions of
    listed lock keys: it creates and updates nothing, takes no lock, and
    deletes no key outside the listing. *)
Theorem RunLocksGC_errors_and_writes k prev s allocated listErr s0 :
  ListPrefix (lockPrefix k) s = ((allocated, listErr), s0) →
  let calls := (RunLocksGC k prev s).2 in
  let result := (RunLocksGC k prev s).1.1 in
  result.2 = ErrListFailed <$> listErr
  ∧ (is_Some result.1 ↔ listErr = None)
  ∧ (listErr ≠ None → calls = [CListPrefix (lockPrefix k) allocated listErr])
  ∧ ∃ deletions,
      calls = CListPrefix (lockPrefix k) allocated listErr :: deletions
      ∧ ∀ c, c ∈ deletions →
          ∃ lockKey err v, c = CDelete lockKey err ∧ (lockKey, v) ∈ allocated.
Proof.
  intros Hlist. destruct listErr as [e|].
  { unfold RunLocksGC. run_store. rewrite Hlist. simpl. split_and!; try done.
    exists []. split; [done|]. by intros c ?%elem_of_nil. }
  destruct (RunLocksGC_run k prev s allocated s0 Hlist)
    as (m & s' & calls & Hloop & ->). simpl.
  split_and!; [done|split; eauto|done|].
  exists calls. split; [done|]. intros c Hc.
  eapply locksGC_loop_calls. by rewrite Hloop.
Qed.

(** X19: two rounds reclaim a stale lock.  If a round of [RunLocksGC] lists
    a lock and does not delete it, and the next round, run with the map the
    first returned, lists the lock under the same ModRevision and LeaseID,
    then the next round hands the lock to the store for deletion. *)
Theorem RunLocksGC_two_rounds_delete k prev0 lockKey
    s1 allocated1 s1' m1 v1 s2 allocated2 s2' v2 :
  ListPrefix (lockPrefix k) s1 = ((allocated1, None), s1') →
  NoDup allocated1.*1 →
  (lockKey, v1) ∈ allocated1 →
  ¬ (CDelete lockKey None ∈ (RunLocksGC k prev0 s1).2) →
  (RunLocksGC k prev0 s1).1.1 = (Some m1, None) →
  ListPrefix (lockPrefix k) s2 = ((allocated2, None), s2') →
  (lockKey, v2) ∈ allocated2 →
  ModRevision v2 = ModRevision v1 → LeaseID v2 = LeaseID v1 →
  ∃ err, CDelete lockKey err ∈ (RunLocksGC k m1 s2).2.
Proof.
  intros Hlist1 Hnd Hin1 Hkept Hres1 Hlist2 Hin2 Hrev Hlease.
  unfold RunLocksGC in Hkept, Hres1 |- *. run_store.
  rewrite Hlist1 in Hkept, Hres1. rewrite Hlist2. simpl in *.
  destruct (locksGC_loop prev0 allocated1 ∅ s1')
    as (m & s' & calls & Hrun & _ & _ & _ & Hmap).
  rewrite Hrun in Hkept, Hres1. simpl in *. injection Hres1 as ->.
  rewrite app_nil_r in Hkept.
  destruct (Hmap Hnd _ _ Hin1) as [[Hc _]|[_ Hm]].
  { destruct Hkept. by right. }
  destruct (locksGC_loop m1 allocated2 ∅ s2')
    as (m2 & s2'' & calls2 & Hrun2 & _ & Htried & _).
  rewrite Hrun2. simpl. rewrite app_nil_r.
  destruct (Htried _ _ Hin2) as [err Herr].
  { unfold lockUnchanged. rewrite Hm. simpl.
    apply andb_true_iff. split; apply Z.eqb_eq; congruence. }
  exists err. by right.
Qed.

End MoreLocksGCFacts.

(** ** The further properties on concrete stores *)

Module Instances.
Import MemStore.

Lemma prefixMatchesKey_exact_key_witness :
  contains_byte slash "172.0.124.60" = false
  ∧ (prefixMatchesKey "v1/value/label;foo;"
       ("v1/value/label;foo;" +:+ "bar;" +:+ String slash "172.0.124.60") = true
     ↔ "bar;" = EmptyString).
Proof.
  split; [reflexivity|].
  apply (prefixMatchesKey_exact_key "v1/value/label;foo;" "bar;" "172.0.124.60").
  reflexivity.
Defined.

Lemma prefixMatchesKey_unique_prefix_witness :
  HasPrefix "b/value/k/n1" "b/value/k" = true
  ∧ prefixMatchesKey "b/value/k" "b/value/k/n1" = true
  ∧ "b/value/k" = "b/value/k".
Proof.
  split_and!; [reflexivity|reflexivity|].
  apply (prefixMatchesKey_unique_prefix "b/value/k" "b/value/k" "b/value/k/n1");
    reflexivity.
Defined.

Lemma gcInScope_agrees_with_keyToID_witness :
  ParseUint "300" = Some 300
  ∧ keyToID 0 backend (idPrefix backend +:+ String slash "300") = Returns (300, None)
  ∧ (gcInScope minID maxID (idPrefix backend +:+ String slash "300") = true
     ↔ minID ≤ 300 ≤ maxID).
Proof.
  split; [reflexivity|].
  apply (gcInScope_agrees_with_keyToID 0 backend minID maxID "300" 300).
  reflexivity.
Defined.

Lemma Get_returns_the_common_ID_witness :
  let pairs := [("b/value/k/n1", val "300" 8 1); ("b/value/kk/n2", val "301" 9 1);
                ("b/value/k/n2", val "300" 10 1)] in
  let s := store_of pairs in
  ListPrefix "b/value/k" s = ((pairs, None), s)
  ∧ Get join 0 backend "k" s = ((300, None), s, [CListPrefix "b/value/k" pairs None]).
Proof.
  split; [reflexivity|].
  refine (Get_returns_the_common_ID join 0 backend "k"
            (store_of [("b/value/k/n1", val "300" 8 1); ("b/value/kk/n2", val "301" 9 1);
                       ("b/value/k/n2", val "300" 10 1)])
            [("b/value/k/n1", val "300" 8 1); ("b/value/kk/n2", val "301" 9 1);
             ("b/value/k/n2", val "300" 10 1)]
            (store_of [("b/value/k/n1", val "300" 8 1); ("b/value/kk/n2", val "301" 9 1);
                       ("b/value/k/n2", val "300" 10 1)])
            "b/value/k/n1" (val "300" 8 1) 300 eq_refl _ eq_refl eq_refl _);
    [left|].
  intros slaveKey' v' n' Hin Hm Hp.
  repeat (apply elem_of_cons in Hin as [Hin|Hin];
          [injection Hin as -> ->; vm_compute in Hm, Hp; congruence|]).
  by apply elem_of_nil in Hin.
Defined.

Lemma Get_and_GetIfLocked_agree_witness :
  let pairs := [("b/value/k/n2", val "300" 8 1)] in
  ListPrefix "b/value/k" usedMaster = ((pairs, None), usedMaster)
  ∧ ListPrefixIfLocked "b/value/k" "b/locks/k" usedMaster = ((pairs, None), usedMaster)
  ∧ (Get join 0 backend "k" usedMaster).1.1
    = (GetIfLocked join 0 backend "k" "b/locks/k" usedMaster).1.1
  ∧ (Get join 0 backend "k" usedMaster).1.1.2 = None
  ∧ mutations (Get join 0 backend "k" usedMaster).2 = []
  ∧ mutations (GetIfLocked join 0 backend "k" "b/locks/k" usedMaster).2 = [].
Proof.
  pose proof (Get_and_GetIfLocked_agree join 0 backend "k" "b/locks/k" usedMaster
                [("b/value/k/n2", val "300" 8 1)] None usedMaster usedMaster
                eq_refl eq_refl) as Hagree.
  split_and!; [reflexivity|reflexivity|apply Hagree..].
Defined.

Lemma ListIDs_listed_ids_witness :
  let identities := [("b/id/300", val "k" 7 0); ("b/id/x", val "j" 8 0);
                     ("b/id/0", val "i" 9 0)] in
  let s := store_of identities in
  ListPrefix (idPrefix backend) s = ((identities, None), s)
  ∧ (ListIDs 0 backend s).1.1 = Returns ([300; 0], None)
  ∧ ((∃ reason, (ListIDs 0 backend s).1.1 = Panics reason)
     ↔ idPrefix backend ∈ identities.*1).
Proof.
  pose proof (ListIDs_listed_ids 0 backend
                (store_of [("b/id/300", val "k" 7 0); ("b/id/x", val "j" 8 0);
                           ("b/id/0", val "i" 9 0)])
                [("b/id/300", val "k" 7 0); ("b/id/x", val "j" 8 0);
                 ("b/id/0", val "i" 9 0)]
                (store_of [("b/id/300", val "k" 7 0); ("b/id/x", val "j" 8 0);
                           ("b/id/0", val "i" 9 0)])
                eq_refl) as [Hpanic _].
  split_and!; [reflexivity|reflexivity|exact Hpanic].
Defined.

Lemma ListAndWatch_calls_handler_witness :
  let event := mkEvent EventTypeDelete "b/id/300" "" in
  let acts : list (action string) := [OnDelete 300 None] in
  (event, acts) ∈ (ListAndWatch 0 backend [event]).1
  ∧ (∀ id key,
       OnDelete id key ∈ acts ↔
       Typ event = EventTypeDelete
       ∧ keyToID 0 backend (Key event) = Returns (id, None) ∧ id ≠ 0
       ∧ key = if 0 <? len (EvValue event)
               then Some (PutKey (keyType backend) (EvValue event)) else None).
Proof.
  split; [vm_compute; left|].
  apply (ListAndWatch_calls_handler 0 backend [mkEvent EventTypeDelete "b/id/300" ""]).
  vm_compute. left.
Defined.

Lemma RunGC_statistics_witness :
  let prev : gmap string Z := {["b/id/300" := 7]} in
  let run := RunGC join backend prev minID maxID unusedMaster in
  ListPrefix (idPrefix backend) unusedMaster
    = (([("b/id/300", val "k" 7 0)], None), unusedMaster)
  ∧ run.1.1 = (Some ∅, Some {| Alive := 0; Deleted := 1 |}, None)
  ∧ Deleted {| Alive := 0; Deleted := 1 |}
    = Z.of_nat (length (List.filter deletionDone run.2))
  ∧ Alive {| Alive := 0; Deleted := 1 |} + Deleted {| Alive := 0; Deleted := 1 |}
    = Z.of_nat (length [("b/id/300", val "k" 7 0)])
  ∧ 0 ≤ Deleted {| Alive := 0; Deleted := 1 |}
  ∧ 0 ≤ Alive {| Alive := 0; Deleted := 1 |}.
Proof.
  pose proof (RunGC_statistics join backend {["b/id/300" := 7]} minID maxID
                unusedMaster [("b/id/300", val "k" 7 0)] unusedMaster
                (Some ∅) {| Alive := 0; Deleted := 1 |} None eq_refl eq_refl) as Hstats.
  split_and!; [reflexivity|reflexivity|apply Hstats..].
Defined.

Lemma RunGC_errors_witness :
  let s := {| entries := [("b/id/300", val "k" 7 0)]; revision := 100;
              failing := []; limiterFails := true |} in
  let prev : gmap string Z := {["b/id/300" := 7]} in
  let run := RunGC join backend prev minID maxID s in
  ListPrefix (idPrefix backend) s = (([("b/id/300", val "k" 7 0)], None), s)
  ∧ run.1.1 = (None, None, Some unavailable)
  ∧ ∃ before, run.2 = before ++ [CWait (Some unavailable)].
Proof.
  pose proof (RunGC_errors join backend {["b/id/300" := 7]} minID maxID
                {| entries := [("b/id/300", val "k" 7 0)]; revision := 100;
                   failing := []; limiterFails := true |}
                [("b/id/300", val "k" 7 0)] None
                {| entries := [("b/id/300", val "k" 7 0)]; revision := 100;
                   failing := []; limiterFails := true |} eq_refl)
    as (_ & Herr & _).
  split_and!; [reflexivity|reflexivity|].
  destruct (Herr unavailable eq_refl) as [_ [(Hne & _)|(_ & Hwait)]];
    [by destruct Hne|exact Hwait].
Defined.

Lemma RunGC_only_deletes_listed_keys_witness :
  let prev : gmap string Z := {["b/id/300" := 7]} in
  ListPrefix (idPrefix backend) unusedMaster
    = (([("b/id/300", val "k" 7 0)], None), unusedMaster)
  ∧ Deletion "b/id/300" ∈ mutations (RunGC join backend prev minID maxID unusedMaster).2
  ∧ ∃ masterKey v,
      Deletion "b/id/300" = Deletion masterKey
      ∧ (masterKey, v) ∈ [("b/id/300", val "k" 7 0)]
      ∧ (None : option error) = None
      ∧ gcInScope minID maxID masterKey = true.
Proof.
  assert (Deletion "b/id/300"
          ∈ mutations (RunGC join backend {["b/id/300" := 7]} minID maxID unusedMaster).2)
    as Hin by (vm_compute; left).
  split_and!; [reflexivity|exact Hin|].
  exact (RunGC_only_deletes_listed_keys join backend {["b/id/300" := 7]} minID maxID
           unusedMaster [("b/id/300", val "k" 7 0)] None unusedMaster
           (Deletion "b/id/300") eq_refl Hin).
Defined.

Lemma RunGC_records_unmarked_keys_only_witness :
  let m : gmap string Z := {["b/id/300" := 7]} in
  ListPrefix (idPrefix backend) unusedMaster
    = (([("b/id/300", val "k" 7 0)], None), unusedMaster)
  ∧ (RunGC join backend ∅ minID maxID unusedMaster).1.1
    = (Some m, Some {| Alive := 1; Deleted := 0 |}, None)
  ∧ m !! "b/id/300" = Some 7
  ∧ (∅ : gmap string Z) !! "b/id/300" = None
  ∧ gcInScope minID maxID "b/id/300" = true
  ∧ ∃ v, ("b/id/300", v) ∈ [("b/id/300", val "k" 7 0)] ∧ 7 = ModRevision v.
Proof.
  pose proof (RunGC_records_unmarked_keys_only join backend ∅ minID maxID
                unusedMaster [("b/id/300", val "k" 7 0)] unusedMaster
                {["b/id/300" := 7]} (Some {| Alive := 1; Deleted := 0 |}) None
                "b/id/300" 7 eq_refl eq_refl eq_refl) as (Hprev & Hscope & Hlisted).
  split_and!; [reflexivity|reflexivity|reflexivity|exact Hprev|exact Hscope|exact Hlisted].
Defined.

Lemma RunGC_deletes_marked_unused_witness :
  let prev : gmap string Z := {["b/id/300" := 7]} in
  let calls := [CLockPath "b/locks/id/300" "b/locks/id/300" None;
                CListPrefixIfLocked "b/value/k" "b/locks/id/300"
                  [("b/value/kk/n2", val "301" 8 1)] None;
                CDeleteIfLocked "b/id/300" "b/locks/id/300" None;
                CUnlock "b/locks/id/300" None;
                CWait None] in
  ("b/id/300", val "k" 7 0, calls)
    ∈ journal (gcEntry join backend prev minID maxID)
        [("b/id/300", val "k" 7 0)] (∅, 0) unusedMaster
  ∧ foundUnused join backend "b/id/300" (val "k" 7 0) calls
  ∧ prev !! "b/id/300" = Some (ModRevision (val "k" 7 0))
  ∧ ∃ lock pairs err u w,
      calls = [CLockPath (lockPathName join backend "b/id/300") lock None;
               CListPrefixIfLocked (join [valuePrefix backend; Data (val "k" 7 0)])
                 lock pairs None;
               CDeleteIfLocked "b/id/300" lock err;
               CUnlock lock u;
               CWait w].
Proof.
  assert (foundUnused join backend "b/id/300" (val "k" 7 0)
            [CLockPath "b/locks/id/300" "b/locks/id/300" None;
             CListPrefixIfLocked "b/value/k" "b/locks/id/300"
               [("b/value/kk/n2", val "301" 8 1)] None;
             CDeleteIfLocked "b/id/300" "b/locks/id/300" None;
             CUnlock "b/locks/id/300" None;
             CWait None]) as Hunused.
  { eexists _, _, _. split; reflexivity. }
  assert (("b/id/300", val "k" 7 0,
           [CLockPath "b/locks/id/300" "b/locks/id/300" None;
            CListPrefixIfLocked "b/value/k" "b/locks/id/300"
              [("b/value/kk/n2", val "301" 8 1)] None;
            CDeleteIfLocked "b/id/300" "b/locks/id/300" None;
            CUnlock "b/locks/id/300" None;
            CWait None])
          ∈ journal (gcEntry join backend {["b/id/300" := 7]} minID maxID)
              [("b/id/300", val "k" 7 0)] (∅, 0) unusedMaster) as Hin
    by (vm_compute; left).
  split_and!; [exact Hin|exact Hunused|reflexivity|].
  exact (RunGC_deletes_marked_unused join backend {["b/id/300" := 7]} minID maxID
           [("b/id/300", val "k" 7 0)] (∅, 0) unusedMaster "b/id/300" (val "k" 7 0) _
           Hin Hunused eq_refl).
Defined.

Lemma RunGC_two_rounds_delete_witness :
  let allocated := [("b/id/300", val "k" 7 0)] in
  let calls := [CLockPath "b/locks/id/300" "b/locks/id/300" None;
                CListPrefixIfLocked "b/value/k" "b/locks/id/300"
                  [("b/value/kk/n2", val "301" 8 1)] None] in
  let m1 : gmap string Z := {["b/id/300" := 7]} in
  (RunGC join backend ∅ minID maxID unusedMaster).1.1
    = (Some m1, Some {| Alive := 1; Deleted := 0 |}, None)
  ∧ ("b/id/300", val "k" 7 0, calls ++ [CUnlock "b/locks/id/300" None])
    ∈ journal (gcEntry join backend ∅ minID maxID) allocated (∅, 0) unusedMaster
  ∧ ("b/id/300", val "k" 7 0,
     calls ++ [CDeleteIfLocked "b/id/300" "b/locks/id/300" None;
               CUnlock "b/locks/id/300" None; CWait None])
    ∈ journal (gcEntry join backend m1 minID maxID) allocated (∅, 0) unusedMaster
  ∧ ∃ lock err, CDeleteIfLocked "b/id/300" lock err
                ∈ (RunGC join backend m1 minID maxID unusedMaster).2.
Proof.
  assert (∀ rest, foundUnused join backend "b/id/300" (val "k" 7 0)
            ([CLockPath "b/locks/id/300" "b/locks/id/300" None;
              CListPrefixIfLocked "b/value/k" "b/locks/id/300"
                [("b/value/kk/n2", val "301" 8 1)] None] ++ rest)) as Hunused.
  { intros rest. eexists _, _, _. split; reflexivity. }
  assert (NoDup [("b/id/300", val "k" 7 0)].*1) as Hnd by compute_done.
  assert (("b/id/300", val "k" 7 0,
           [CLockPath "b/locks/id/300" "b/locks/id/300" None;
            CListPrefixIfLocked "b/value/k" "b/locks/id/300"
              [("b/value/kk/n2", val "301" 8 1)] None]
           ++ [CUnlock "b/locks/id/300" None])
          ∈ journal (gcEntry join backend ∅ minID maxID)
              [("b/id/300", val "k" 7 0)] (∅, 0) unusedMaster) as Hin1
    by (vm_compute; left).
  assert (("b/id/300", val "k" 7 0,
           [CLockPath "b/locks/id/300" "b/locks/id/300" None;
            CListPrefixIfLocked "b/value/k" "b/locks/id/300"
              [("b/value/kk/n2", val "301" 8 1)] None]
           ++ [CDeleteIfLocked "b/id/300" "b/locks/id/300" None;
               CUnlock "b/locks/id/300" None; CWait None])
          ∈ journal (gcEntry join backend {["b/id/300" := 7]} minID maxID)
              [("b/id/300", val "k" 7 0)] (∅, 0) unusedMaster) as Hin2
    by (vm_compute; left).
  split_and!; [reflexivity|exact Hin1|exact Hin2|].
  exact (RunGC_two_rounds_delete join backend ∅ minID maxID "b/id/300"
           unusedMaster [("b/id/300", val "k" 7 0)] unusedMaster
           {["b/id/300" := 7]} (Some {| Alive := 1; Deleted := 0 |})
           (val "k" 7 0) _
           unusedMaster [("b/id/300", val "k" 7 0)] unusedMaster (val "k" 7 0) _
           eq_refl Hnd eq_refl Hin1 (Hunused _) eq_refl
           eq_refl Hin2 (Hunused _) eq_refl).
Defined.

Lemma RunLocksGC_errors_and_writes_witness :
  let allocated := [("b/locks/id/1", val "" 3 9); ("b/locks/id/2", val "" 4 9)] in
  let run := RunLocksGC backend locksSeenBefore twoLocks in
  ListPrefix (lockPrefix backend) twoLocks = ((allocated, None), twoLocks)
  ∧ run.1.1.2 = ErrListFailed <$> None
  ∧ (is_Some run.1.1.1 ↔ (None : option error) = None)
  ∧ ∃ deletions,
      run.2 = CListPrefix (lockPrefix backend) allocated None :: deletions
      ∧ ∀ c, c ∈ deletions →
          ∃ lockKey err v, c = CDelete lockKey err ∧ (lockKey, v) ∈ allocated.
Proof.
  pose proof (RunLocksGC_errors_and_writes backend locksSeenBefore twoLocks
                [("b/locks/id/1", val "" 3 9); ("b/locks/id/2", val "" 4 9)]
                None twoLocks eq_refl) as (Herr & Hsome & _ & Hcalls).
  split_and!; [reflexivity|exact Herr|exact Hsome|exact Hcalls].
Defined.

Lemma RunLocksGC_two_rounds_delete_witness :
  let allocated := [("b/locks/id/1", val "" 3 9); ("b/locks/id/2", val "" 4 9)] in
  let m1 : gmap string Value :=
    {[ "b/locks/id/1" := val "" 3 9; "b/locks/id/2" := val "" 4 9 ]} in
  ListPrefix (lockPrefix backend) twoLocks = ((allocated, None), twoLocks)
  ∧ NoDup allocated.*1
  ∧ ¬ (CDelete "b/locks/id/1" None ∈ (RunLocksGC backend ∅ twoLocks).2)
  ∧ (RunLocksGC backend ∅ twoLocks).1.1 = (Some m1, None)
  ∧ ∃ err, CDelete "b/locks/id/1" err ∈ (RunLocksGC backend m1 twoLocks).2.
Proof.
  assert (NoDup [("b/locks/id/1", val "" 3 9); ("b/locks/id/2", val "" 4 9)].*1)
    as Hnd by compute_done.
  assert (¬ (CDelete "b/locks/id/1" None
             ∈ (RunLocksGC (LockT := string) backend ∅ twoLocks).2)) as Hkept.
  { vm_compute. intros Hin.
    repeat (apply elem_of_cons in Hin as [Hin|Hin]; [discriminate Hin|]).
    by apply elem_of_nil in Hin. }
  split_and!; [reflexivity|exact Hnd|exact Hkept|reflexivity|].
  refine (RunLocksGC_two_rounds_delete backend ∅ "b/locks/id/1"
            twoLocks [("b/locks/id/1", val "" 3 9); ("b/locks/id/2", val "" 4 9)]
            twoLocks
            {[ "b/locks/id/1" := val "" 3 9; "b/locks/id/2" := val "" 4 9 ]}
            (val "" 3 9)
            twoLocks [("b/locks/id/1", val "" 3 9); ("b/locks/id/2", val "" 4 9)]
            twoLocks (val "" 3 9)
            eq_refl Hnd _ Hkept eq_refl eq_refl _ eq_refl eq_refl); left.
Defined.

End Instances.

(** * The runs against the store

    The statements above read the calls that a method records.  The
    statements below add that the record is the run: every method issues
    the calls it records, in that order, and leaves the store in the state
    these calls lead to. *)

Section StoreFacts.
Context {St LockT : Type}.
Context `{!BackendOperations St LockT, !Limiter St}.

Implicit Types (s : St) (calls : list (call LockT)).

Lemma performed_app s calls1 s1 calls2 s2 :
  performed s calls1 s1 → performed s1 calls2 s2 →
  performed s (calls1 ++ calls2) s2.
Proof.
  revert s. induction calls1 as [|c calls1 IH]; intros s; simpl.
  - by intros ->.
  - intros (s' & Hc & Hrest) H2. exists s'. split; [done|by apply IH].
Qed.

Lemma performed_app_inv s calls1 calls2 s2 :
  performed s (calls1 ++ calls2) s2 →
  ∃ s1, performed s calls1 s1 ∧ performed s1 calls2 s2.
Proof.
  revert s. induction calls1 as [|c calls1 IH]; intros s; simpl.
  - intros H2. by exists s.
  - intros (s' & Hc & Hrest). destruct (IH _ Hrest) as (s1 & H1 & H2).
    exists s1. split; [by exists s'|done].
Qed.

Lemma faithful_ret {A} (a : A) : faithful (LockT := LockT) (St := St) (mret a).
Proof. by intros s. Qed.

Lemma faithful_bind {A B} (m : M St LockT A) (f : A → M St LockT B) :
  faithful m → (∀ a, faithful (f a)) → faithful (m ≫= f).
Proof.
  intros Hm Hf s. unfold mbind, M_bind, bind.
  specialize (Hm s). destruct (m s) as [[a s1] l1].
  specialize (Hf a s1). destruct (f a s1) as [[b s2] l2]. simpl in *.
  by eapply performed_app.
Qed.

Lemma faithful_perform {R} (op : St → R * St) (record : R → call LockT) :
  (∀ s, answers (record (op s).1) s (op s).2) → faithful (perform op record).
Proof.
  intros Hop s. unfold perform. specialize (Hop s).
  destruct (op s) as [r s']. simpl in *. by exists s'.
Qed.

Lemma faithful_forRange {A Acc R} (f : A → Acc → M St LockT (Acc + R)) :
  (∀ x acc, faithful (f x acc)) → ∀ l acc, faithful (forRange f l acc).
Proof.
  intros Hf l. induction l as [|x l IH]; intros acc; cbn [forRange].
  - apply faithful_ret.
  - apply faithful_bind; [apply Hf|]. intros [acc'|r]; [apply IH|apply faithful_ret].
Qed.

End StoreFacts.

(** Prove a method faithful: follow its binds, branches and calls. *)
Ltac answered :=
  intros ?; simpl;
  match goal with
  | |- ?op = _ => first [destruct op as [[? ?] ?]|destruct op as [? ?]]
  end; done.

Ltac faithfully :=
  repeat first
    [ apply faithful_ret
    | apply faithful_perform; answered
    | apply faithful_bind; [|intros ?]
    | apply faithful_forRange; intros ? ?
    | progress simpl
    | case_match ].

Section Faithful.
Context {St LockT K : Type}.
Context `{!BackendOperations St LockT, !Limiter St, !AllocatorKey K}.
Variable path_Join : list string → string.
Variable ID_String : ID → string.
Variable NoID : ID.

Implicit Types (k : kvstoreBackend K) (key : K) (id : ID) (s : St).

Lemma Get_faithful k key : faithful (Get path_Join NoID k key).
Proof. unfold Get. faithfully. Qed.

Lemma GetIfLocked_faithful k key lock :
  faithful (GetIfLocked path_Join NoID k key lock).
Proof. unfold GetIfLocked. faithfully. Qed.

Lemma UpdateKey_faithful k id key reliablyMissing :
  faithful (UpdateKey path_Join ID_String k id key reliablyMissing).
Proof. unfold UpdateKey. faithfully. Qed.

Lemma UpdateKeyIfLocked_faithful k id key reliablyMissing lock :
  faithful (UpdateKeyIfLocked path_Join ID_String k id key reliablyMissing lock).
Proof. unfold UpdateKeyIfLocked. faithfully. Qed.

Lemma Release_faithful k id key : faithful (Release path_Join k id key).
Proof. unfold Release. faithfully. Qed.



Lemma gcEntry_faithful k prev min max entry acc :
  faithful (gcEntry (LockT := LockT) path_Join k prev min max entry acc).
Proof. unfold gcEntry, lockPath. faithfully. Qed.

Lemma RunGC_faithful k prev min max :
  faithful (RunGC (LockT := LockT) path_Join k prev min max).
Proof.
  unfold RunGC. apply faithful_bind; [faithfully|]. intros [allocated [e|]].
  { apply faithful_ret. }
  apply faithful_bind.
  - apply faithful_forRange. intros entry acc. apply gcEntry_faithful.
  - intros [[m d]|e]; apply faithful_ret.
Qed.

End Faithful.

Section Revisited.
Context {St LockT K : Type}.
Context `{!BackendOperations St LockT, !Limiter St, !AllocatorKey K}.
Variable path_Join : list string → string.
Variable ID_String : ID → string.
Variable NoID : ID.

Implicit Types (k : kvstoreBackend K) (key : K) (id : ID) (s : St).

(** C7: [UpdateKey] issues create-if-absent on the master key [idPrefix/ID]
    with the key as value and no lease; if the store answers with an error
    it returns that error, wrapped, and stops there; otherwise, whether or
    not the master key was created, it issues on this node's slave key
    [valuePrefix/key/suffix], from the state the first call left, with the
    ID as value and a lease, create-if-absent when [reliablyMissing] is set
    and update-if-different when it is not, and returns the error of that
    call, wrapped, or [nil].  These are its only calls, and the store is
    left as the last of them leaves it.  [UpdateKeyIfLocked] does the same
    under the lock, except that its create-if-absent on the slave key is
    issued without the lock. *)
Theorem UpdateKey_creates_master_then_writes_slave k id key
    (reliablyMissing : bool) s :
  let keyPath := path_Join [idPrefix k; ID_String id] in
  let valueKey := path_Join [valuePrefix k; GetKey key; suffix k] in
  let slaveWrite :=
    if reliablyMissing then CreateIfAbsent valueKey (ID_String id) true
    else UpdateIfDiffers valueKey (ID_String id) true in
  (let master := CreateOnly keyPath (GetKey key) false s in
   let slave :=
     if reliablyMissing then CreateOnly valueKey (ID_String id) true master.2
     else UpdateIfDifferent valueKey (ID_String id) true master.2 in
   let run := UpdateKey path_Join ID_String k id key reliablyMissing s in
   match master.1.2 with
   | Some e =>
       run = (Some (ErrRecreateMasterKey valueKey e), master.2,
              [CCreateOnly keyPath (GetKey key) false master.1.1 (Some e)])
   | None =>
       run = (ErrRecreateSlaveKey valueKey <$> slave.1.2, slave.2,
              [CCreateOnly keyPath (GetKey key) false master.1.1 None;
               if reliablyMissing
               then CCreateOnly valueKey (ID_String id) true slave.1.1 slave.1.2
               else CUpdateIfDifferent valueKey (ID_String id) true slave.1.1 slave.1.2])
   end
   ∧ performed s run.2 run.1.2
   ∧ mutations run.2 =
       CreateIfAbsent keyPath (GetKey key) false ::
       match master.1.2 with Some _ => [] | None => [slaveWrite] end)
  ∧ ∀ lock,
    let master := CreateOnlyIfLocked keyPath (GetKey key) false lock s in
    let slave :=
      if reliablyMissing then CreateOnly valueKey (ID_String id) true master.2
      else UpdateIfDifferentIfLocked valueKey (ID_String id) true lock master.2 in
    let run := UpdateKeyIfLocked path_Join ID_String k id key reliablyMissing lock s in
    match master.1.2 with
    | Some e =>
        run = (Some (ErrRecreateMasterKey valueKey e), master.2,
               [CCreateOnlyIfLocked keyPath (GetKey key) false lock master.1.1 (Some e)])
    | None =>
        run = (ErrRecreateSlaveKey valueKey <$> slave.1.2, slave.2,
               [CCreateOnlyIfLocked keyPath (GetKey key) false lock master.1.1 None;
                if reliablyMissing
                then CCreateOnly valueKey (ID_String id) true slave.1.1 slave.1.2
                else CUpdateIfDifferentIfLocked valueKey (ID_String id) true lock
                       slave.1.1 slave.1.2])
    end
    ∧ performed s run.2 run.1.2
    ∧ mutations run.2 =
        CreateIfAbsent keyPath (GetKey key) false ::
        match master.1.2 with Some _ => [] | None => [slaveWrite] end.
Proof.
  intros keyPath valueKey slaveWrite.
  destruct (UpdateKey_mutations path_Join ID_String k id key reliablyMissing s)
    as [Hplain Hlocked].
  split; [|intros lock]; cbv zeta.
  - split_and!; [|apply UpdateKey_faithful|exact Hplain].
    unfold UpdateKey. run_store. fold keyPath valueKey.
    destruct (CreateOnly keyPath (GetKey key) false s) as [[ok [e|]] s1]; simpl;
      [done|].
    destruct reliablyMissing.
    + by destruct (CreateOnly valueKey (ID_String id) true s1) as [[ok2 [e|]] s2].
    + by destruct (UpdateIfDifferent valueKey (ID_String id) true s1)
        as [[ok2 [e|]] s2].
  - split_and!; [|apply UpdateKeyIfLocked_faithful|exact (Hlocked lock)].
    unfold UpdateKeyIfLocked. run_store. fold keyPath valueKey.
    destruct (CreateOnlyIfLocked keyPath (GetKey key) false lock s)
      as [[ok [e|]] s1]; simpl; [done|].
    destruct reliablyMissing.
    + by destruct (CreateOnly valueKey (ID_String id) true s1) as [[ok2 [e|]] s2].
    + by destruct (UpdateIfDifferentIfLocked valueKey (ID_String id) true lock s1)
        as [[ok2 [e|]] s2].
Qed.



Lemma gc_loop_mutations k (prev : gmap string Z) min max l
    (acc : gmap string Z * Z) s (c : call LockT) mu :
  c ∈ (forRange (gcEntry (LockT := LockT) path_Join k prev min max) l acc s).2 →
  mutation_of c = Some mu →
  ∃ masterKey lock err, c = CDeleteIfLocked masterKey lock err.
Proof.
  revert c.
  apply (gc_loop_ind path_Join k prev min max
           (λ _ _ _ calls, ∀ c, c ∈ calls → mutation_of c = Some mu →
              ∃ masterKey lock err, c = CDeleteIfLocked masterKey lock err)).
  - by intros _ c ?%elem_of_nil.
  - intros masterKey v l0 acc0 acc' c1 r rest Hp IH c [Hc|Hc]%elem_of_app;
      [|by apply IH].
    inversion Hp; subst;
      repeat (apply elem_of_cons in Hc as [->|Hc]; [by eauto|]);
      by apply elem_of_nil in Hc.
  - intros masterKey v l0 acc0 e c1 Hp c. rewrite app_nil_r. intros Hc.
    inversion Hp; subst;
      repeat (apply elem_of_cons in Hc as [->|Hc]; [by eauto|]);
      by apply elem_of_nil in Hc.
Qed.

(** C1: [RunGC] issues to the store the calls it records and leaves it as
    they leave it, and every call among them that writes (creates, updates
    or deletes a key, with or without a lock) is a deletion of a master key
    under a lock, issued in a pass that took the lock of that very key and
    then listed, under that lock and without an error, the slave keys under
    [valuePrefix/value] without finding one that matches the prefix, for a
    listed key in scope that the previous round recorded with the
    ModRevision now listed.  So a master key with a matching slave key, or
    one whose ModRevision changed since it was marked, or one that was not
    marked, is never deleted, and nothing else is written. *)
Theorem RunGC_writes_only_guarded_deletions k (prev : gmap string Z) min max s :
  let run := RunGC path_Join k prev min max s in
  performed s run.2 run.1.2
  ∧ ∀ c mu, c ∈ run.2 → mutation_of c = Some mu →
      ∃ masterKey lock err allocated v pairs u pre post,
        let valueKeyPrefix := path_Join [valuePrefix k; Data v] in
        mu = Deletion masterKey
        ∧ c = CDeleteIfLocked masterKey lock err
        ∧ run.2 =
            CListPrefix (idPrefix k) allocated None ::
            pre ++ [CLockPath (lockPathName path_Join k masterKey) lock None;
                    CListPrefixIfLocked valueKeyPrefix lock pairs None;
                    CDeleteIfLocked masterKey lock err;
                    CUnlock lock u] ++ post
        ∧ (masterKey, v) ∈ allocated
        ∧ gcInScope min max masterKey = true
        ∧ (∀ slaveKey sv, (slaveKey, sv) ∈ pairs →
             prefixMatchesKey valueKeyPrefix slaveKey = false)
        ∧ prev !! masterKey = Some (ModRevision v).
Proof.
  intros run. split; [apply RunGC_faithful|].
  intros c mu Hc Hmu.
  assert (∃ masterKey lock err, c = CDeleteIfLocked masterKey lock err)
    as (masterKey & lock & err & ->).
  { destruct (ListPrefix (idPrefix k) s) as [[allocated [e|]] s0] eqn:Hlist.
    - unfold run, RunGC in Hc. run_store. rewrite Hlist in Hc. simpl in Hc.
      by apply elem_of_cons in Hc as [->|?%elem_of_nil].
    - unfold run in Hc. rewrite (RunGC_calls path_Join _ _ _ _ _ _ _ Hlist) in Hc.
      apply elem_of_cons in Hc as [->|Hc]; [done|].
      by eapply gc_loop_mutations. }
  simpl in Hmu. injection Hmu as <-.
  destruct (RunGC_deletes_only_marked_unused path_Join k prev min max s
              masterKey lock err Hc)
    as (allocated & v & pairs & u & pre & post & Hshape).
  exists masterKey, lock, err, allocated, v, pairs, u, pre, post.
  cbv zeta in *. by split_and!; try apply Hshape.
Qed.

(** X4: on a master key written as prefix, [/], decimal number, [keyToID]
    returns that number, and the pass of [RunGC] over the key goes by the
    same number: when it lies within [min, max] the pass begins by taking
    the lock of the key, and when it does not the pass issues no call and
    leaves the store and the loop state as they are. *)
Theorem RunGC_scope_agrees_with_keyToID k (prev : gmap string Z) (min max : Z)
    digits id v (acc : gmap string Z * Z) s :
  ParseUint digits = Some id →
  let masterKey := idPrefix k +:+ String slash digits in
  let run := gcEntry path_Join k prev min max (masterKey, v) acc s in
  keyToID NoID k masterKey = Returns (id, None)
  ∧ (min ≤ id ≤ max →
     ∃ rest, run.2 = CLockPath (lockPathName path_Join k masterKey)
                       (LockPath (lockPathName path_Join k masterKey) s).1.1
                       (LockPath (lockPathName path_Join k masterKey) s).1.2 :: rest)
  ∧ (¬ (min ≤ id ≤ max) → run = (inl acc, s, [])).
Proof.
  intros Hd masterKey run.
  destruct (gcInScope_agrees_with_keyToID NoID k min max digits id Hd)
    as [Hkey Hscope]. fold masterKey in Hkey, Hscope.
  split_and!; [done| |].
  - intros Hin. apply Hscope in Hin.
    pose proof (gcEntry_pass path_Join k prev min max masterKey v acc s) as Hp.
    pose proof (gcEntry_faithful path_Join k prev min max (masterKey, v) acc s) as Hf.
    unfold run.
    destruct (gcEntry path_Join k prev min max (masterKey, v) acc s)
      as [[r s'] calls]. cbn [fst snd] in *.
    inversion Hp; subst; [congruence|..];
      destruct Hf as (s1 & Hanswer & _); simpl in Hanswer; rewrite Hanswer;
      by eexists.
  - intros Hout. apply gcEntry_out_of_scope.
    destruct (gcInScope min max masterKey) eqn:Hs; [|done].
    destruct Hout. by apply Hscope.
Qed.

End Revisited.

(** ** The runs on concrete stores *)

Module Replayed.
Import MemStore.

Lemma RunGC_writes_only_guarded_deletions_witness :
  let prev : gmap string Z := {["b/id/300" := 7]} in
  let run := RunGC join backend prev minID maxID unusedMaster in
  let c := CDeleteIfLocked "b/id/300" "b/locks/id/300" None in
  c ∈ run.2
  ∧ mutation_of c = Some (Deletion "b/id/300")
  ∧ performed unusedMaster run.2 run.1.2
  ∧ entries run.1.2 = [("b/value/kk/n2", val "301" 8 1)]
  ∧ ∃ masterKey lock err allocated v pairs u pre post,
      let valueKeyPrefix := join [valuePrefix backend; Data v] in
      Deletion "b/id/300" = Deletion masterKey
      ∧ c = CDeleteIfLocked masterKey lock err
      ∧ run.2 =
          CListPrefix (idPrefix backend) allocated None ::
          pre ++ [CLockPath (lockPathName join backend masterKey) lock None;
                  CListPrefixIfLocked valueKeyPrefix lock pairs None;
                  CDeleteIfLocked masterKey lock err;
                  CUnlock lock u] ++ post
      ∧ (masterKey, v) ∈ allocated
      ∧ gcInScope minID maxID masterKey = true
      ∧ (∀ slaveKey sv, ((slaveKey, sv) : string * Value) ∈ pairs →
           prefixMatchesKey valueKeyPrefix slaveKey = false)
      ∧ prev !! masterKey = Some (ModRevision v).
Proof.
  assert (CDeleteIfLocked "b/id/300" "b/locks/id/300" None
          ∈ (RunGC join backend {["b/id/300" := 7]} minID maxID unusedMaster).2) as Hin
    by (vm_compute; do 3 right; left).
  pose proof (RunGC_writes_only_guarded_deletions join backend {["b/id/300" := 7]}
                minID maxID unusedMaster) as [Hrun Hguard].
  split_and!; [exact Hin|reflexivity|exact Hrun|reflexivity|].
  exact (Hguard _ (Deletion "b/id/300") Hin eq_refl).
Defined.


Lemma RunGC_scope_agrees_with_keyToID_witness :
  let masterKey := idPrefix backend +:+ String slash "256" in
  let run := gcEntry join backend ∅ minID maxID (masterKey, val "k" 7 0) (∅, 0)
               unusedMaster in
  ParseUint "256" = Some 256
  ∧ minID ≤ 256 ≤ maxID
  ∧ keyToID 0 backend masterKey = Returns (256, None)
  ∧ ∃ rest, run.2 = CLockPath (lockPathName join backend masterKey)
                      (LockPath (lockPathName join backend masterKey) unusedMaster).1.1
                      (LockPath (lockPathName join backend masterKey) unusedMaster).1.2
                    :: rest.
Proof.
  assert (minID ≤ 256 ≤ maxID) as Hin by (unfold minID, maxID; lia).
  pose proof (RunGC_scope_agrees_with_keyToID join 0 backend ∅ minID maxID
                "256" 256 (val "k" 7 0) (∅, 0) unusedMaster eq_refl)
    as (Hkey & Hlock & _).
  split; [reflexivity|]. split; [exact Hin|]. split; [exact Hkey|exact (Hlock Hin)].
Defined.

(** [UpdateKey] on a store without the mapping writes both keys. *)
Example UpdateKey_writes_both_keys :
  let run := UpdateKey join idString backend 300 "k" true (store_of []) in
  run.1.1 = None
  ∧ entries run.1.2 = [("b/id/300", val "k" 101 0); ("b/value/k/n1", val "300" 102 1)].
Proof. vm_compute. done. Qed.

End Replayed.
